(** * speed-cloudflare-cli: statistics engine and measurement drivers

    A shallow embedding of [stats.js] and of the entry script (its
    measurement drivers, the parsers of the metadata responses and the
    console report), with the properties of the specification stated and
    settled against it, followed by further properties of the code.

    Number model.  A JavaScript Number is embedded as an exact rational
    ([Qc], canonical rationals with Leibniz equality) extended with the three
    special values the code can produce: [NaN] (0/0, arithmetic on
    [undefined]), [+Infinity] and [-Infinity] (division by zero, [Math.min()]
    of nothing).  Rounding, overflow and underflow of binary64 arithmetic
    and the sign of zero are abstracted: finite arithmetic is exact, and the
    sum, difference and product of finite numbers are finite.  Where a
    result of the code depends on a difference staying finite, the
    statement is limited to differences within [MAX_VALUE].

    Array model.  A JavaScript array of numbers is a [list number]; an index
    outside the array reads as [undefined].  A function that mutates its
    argument returns the array as it leaves it next to its result; the two
    functions that index the array at a computed position ([median] and
    [quartile]) also record the indices they read, in program order.

    Network model.  The drivers run in a [world] that says how the promise
    of the k-th request settles and keeps the requests issued and the lines
    printed.  [request] itself is embedded on what the network delivers,
    where its promise need not settle, and [drive] is the loop of the
    drivers on such deliveries. *)

From Stdlib Require Import QArith Qcanon Qround.
From stdpp Require Import base numbers list strings gmap sorting pretty.

Local Open Scope Qc_scope.

(** ** JavaScript values *)

Inductive number : Type :=
  | Fin (q : Qc)
  | PosInf
  | NegInf
  | NaN.

Inductive value : Type :=
  | VUndef
  | VNum (n : number).

(** [ToNumber]: [undefined] coerces to [NaN]. *)
Definition ToNumber (v : value) : number :=
  match v with
  | VUndef => NaN
  | VNum n => n
  end.

Definition of_Z (z : Z) : number := Fin (Qc_of_Z z).
Definition of_nat (n : nat) : number := of_Z (Z.of_nat n).
Definition ratio (a : Z) (b : positive) : number := Fin (Q2Qc (a # b)).

Definition Qc_eqb (a b : Qc) : bool := Qeq_bool a b.
Definition Qc_ltb (a b : Qc) : bool := negb (Qle_bool b a).

Definition number_eqb (a b : number) : bool :=
  match a, b with
  | Fin x, Fin y => Qc_eqb x y
  | PosInf, PosInf | NegInf, NegInf | NaN, NaN => true
  | _, _ => false
  end.

Definition isNaN (a : number) : bool :=
  match a with NaN => true | _ => false end.

(** *** Arithmetic *)

Definition neg (a : number) : number :=
  match a with
  | Fin x => Fin (- x)
  | PosInf => NegInf
  | NegInf => PosInf
  | NaN => NaN
  end.

Definition add (a b : number) : number :=
  match a, b with
  | NaN, _ | _, NaN => NaN
  | Fin x, Fin y => Fin (x + y)
  | PosInf, NegInf | NegInf, PosInf => NaN
  | PosInf, _ | _, PosInf => PosInf
  | NegInf, _ | _, NegInf => NegInf
  end.

Definition sub (a b : number) : number := add a (neg b).

(** Sign of a number: [Some true] positive, [Some false] negative, [None]
    for zero and [NaN]. *)
Definition sign (a : number) : option bool :=
  match a with
  | Fin x => if Qc_ltb 0 x then Some true
             else if Qc_ltb x 0 then Some false else None
  | PosInf => Some true
  | NegInf => Some false
  | NaN => None
  end.

Definition inf_of (positive : bool) : number :=
  if positive then PosInf else NegInf.

Definition mul (a b : number) : number :=
  match a, b with
  | NaN, _ | _, NaN => NaN
  | Fin x, Fin y => Fin (x * y)
  | _, _ =>
      match sign a, sign b with
      | Some s, Some t => inf_of (eqb s t)
      | _, _ => NaN
      end
  end.

Definition div (a b : number) : number :=
  match a, b with
  | NaN, _ | _, NaN => NaN
  | Fin x, Fin y =>
      if Qc_eqb y 0 then
        match sign a with
        | Some s => inf_of s
        | None => NaN
        end
      else Fin (x / y)
  | Fin _, _ => Fin 0
  | _, Fin y => match sign a with
                | Some s => inf_of (eqb s (negb (Qc_ltb y 0)))
                | None => NaN
                end
  | _, _ => NaN
  end.

Definition Math_abs (a : number) : number :=
  match a with
  | Fin x => Fin (if Qc_ltb x 0 then - x else x)
  | PosInf | NegInf => PosInf
  | NaN => NaN
  end.

Definition Math_floor (a : number) : number :=
  match a with
  | Fin x => of_Z (Qfloor x)
  | _ => a
  end.

(** [a < b] and [a > b] of the language: false whenever an operand is [NaN]. *)
Definition lt (a b : number) : bool :=
  match a, b with
  | NaN, _ | _, NaN => false
  | Fin x, Fin y => Qc_ltb x y
  | NegInf, NegInf | PosInf, _ => false
  | NegInf, _ | _, PosInf => true
  | _, NegInf => false
  end.

Definition gt (a b : number) : bool := lt b a.

(** *** Arrays *)

(** [values.length] *)
Definition length_of (values : list number) : number := of_nat (length values).

(** [values[k]]: the element when [k] is an integer index inside the array,
    [undefined] otherwise. *)
Definition aget (values : list number) (k : number) : value :=
  match k with
  | Fin q =>
      if ((Qden q =? 1)%positive && (0 <=? Qnum q)%Z)%bool then
        match values !! Z.to_nat (Qnum q) with
        | Some x => VNum x
        | None => VUndef
        end
      else VUndef
  | _ => VUndef
  end.

(** [for (let i = 0; i < n; i += 1) body], for an integer bound [n] fixed
    before the loop: the body runs for [i = 0, 1, ..., n-1]. *)
Fixpoint for_from {St : Type} (i n : nat) (body : nat → St → St) (s : St) : St :=
  match n with
  | O => s
  | S n' => for_from (S i) n' body (body i s)
  end.

Definition for_upto {St : Type} (n : nat) (body : nat → St → St) (s : St) : St :=
  for_from 0 n body s.

(** [Array.prototype.sort(comparefn)].  The language leaves the algorithm to
    the implementation and fixes the result for a consistent comparator: the
    stable ascending arrangement.  A comparator result of [NaN] counts as
    [+0].  The embedding is the stable insertion sort. *)
Definition SortCompare (comparefn : number → number → number) (x y : number)
  : number :=
  let v := comparefn x y in
  if isNaN v then of_Z 0 else v.

Fixpoint sort_insert (comparefn : number → number → number) (x : number)
    (sorted : list number) : list number :=
  match sorted with
  | [] => [x]
  | y :: rest =>
      if gt (SortCompare comparefn x y) (of_Z 0)
      then y :: sort_insert comparefn x rest
      else x :: y :: rest
  end.

Definition Array_sort (comparefn : number → number → number)
    (values : list number) : list number :=
  foldr (sort_insert comparefn) [] values.

(** Array reads at computed positions are traced: a computation in [Reads]
    carries the list of the indices it has read, in program order. *)
Definition Reads (A : Type) : Type := (A * list number)%type.

Global Instance Reads_ret : MRet Reads := λ A a, (a, []).
Global Instance Reads_bind : MBind Reads :=
  λ A B f m, let r := f m.1 in (r.1, m.2 ++ r.2).

Definition read (values : list number) (k : number) : Reads value :=
  (aget values k, [k]).

(** What a call that sorts its argument leaves behind. *)
Definition returned (c : Reads (value * list number)) : value := c.1.1.
Definition array_after (c : Reads (value * list number)) : list number := c.1.2.
Definition indices_read (c : Reads (value * list number)) : list number := c.2.

(** An index is inside the array when reading it yields an element. *)
Definition in_bounds (values : list number) (k : number) : bool :=
  match aget values k with
  | VNum _ => true
  | VUndef => false
  end.

(** ** stats.js *)

Module stats.

Definition average (values : list number) : number :=
  let total :=
    for_upto (length values)
      (λ i total, add total (ToNumber (aget values (of_nat i))))
      (of_Z 0) in
  div total (length_of values).

(** [values.length % 2], used as a condition. *)
Definition odd_length (values : list number) : bool :=
  negb (length values mod 2 =? 0)%nat.

Definition median (values : list number) : Reads (value * list number) :=
  let half := Math_floor (div (length_of values) (of_Z 2)) in
  let values := Array_sort sub values in
  if odd_length values then
    middle ← read values half;
    mret (middle, values)
  else
    low ← read values (sub half (of_Z 1));
    high ← read values half;
    mret (VNum (div (add (ToNumber low) (ToNumber high)) (of_Z 2)), values).

Definition quartile (values : list number) (percentile : number)
  : Reads (value * list number) :=
  let values := Array_sort sub values in
  let pos := mul (sub (length_of values) (of_Z 1)) percentile in
  let base := Math_floor pos in
  let rest := sub pos base in
  probe ← read values (add base (of_Z 1));
  match probe with
  | VNum _ =>
      lower ← read values base;
      upper ← read values (add base (of_Z 1));
      lower' ← read values base;
      mret (VNum (add (ToNumber lower)
                      (mul rest (sub (ToNumber upper) (ToNumber lower')))),
            values)
  | VUndef =>
      last ← read values base;
      mret (last, values)
  end.

Definition _jitters (values : list number) : list number :=
  for_upto (Z.to_nat (Z.of_nat (length values) - 1))
    (λ i jitters,
       jitters ++ [Math_abs (sub (ToNumber (aget values (of_nat i)))
                                 (ToNumber (aget values (of_nat (i + 1)))))])
    [].

Definition jitter (values : list number) : number :=
  average (_jitters values).

Definition jitterP90 (values : list number) : value :=
  returned (quartile (_jitters values) (ratio 90 100)).

Definition jitterP95 (values : list number) : value :=
  returned (quartile (_jitters values) (ratio 95 100)).

Definition p90 (values : list number) : Reads (value * list number) :=
  quartile values (ratio 90 100).

Definition p95 (values : list number) : Reads (value * list number) :=
  quartile values (ratio 95 100).

(** The module object: what [require('./stats.js')] evaluates to.  A
    function of one array is kept with the array as it leaves it; the one
    function of two arguments is [quartile]. *)
Inductive export : Type :=
  | Fn1 (f : list number → value * list number)
  | Fn2 (f : list number → number → value * list number).

Definition pure1 (f : list number → number) : export :=
  Fn1 (λ values, (VNum (f values), values)).
Definition fresh1 (f : list number → value) : export :=
  Fn1 (λ values, (f values, values)).
Definition sorting1 (f : list number → Reads (value * list number))
  : export :=
  Fn1 (λ values, (f values).1).

Definition exports : gmap string export :=
  list_to_map
    [ ("average", pure1 average);
      ("median", sorting1 median);
      ("quartile", Fn2 (λ values percentile, (quartile values percentile).1));
      ("jitter", pure1 jitter);
      ("jitterP90", fresh1 jitterP90);
      ("jitterP95", fresh1 jitterP95);
      ("p90", sorting1 p90);
      ("p95", sorting1 p95) ].

End stats.

(** ** The entry script *)

(** What [request] resolves with: the seven-element array
    [[started, dnsLookup, tcpHandshake, sslHandshake, ttfb, ended,
      parseFloat(server-timing)]].  A timestamp whose event never fired is
    [undefined]. *)
Record response : Type := Response {
  started : number;
  dnsLookup : value;
  tcpHandshake : value;
  sslHandshake : value;
  ttfb : value;
  ended : number;
  serverTiming : number;
}.

(** [response[i]] *)
Definition at_index (r : response) (i : nat) : value :=
  match i with
  | 0 => VNum (started r)
  | 1 => dnsLookup r
  | 2 => tcpHandshake r
  | 3 => sslHandshake r
  | 4 => ttfb r
  | 5 => VNum (ended r)
  | 6 => VNum (serverTiming r)
  | _ => VUndef
  end.

(** How the promise of one request settles: [request] resolves when the
    response has ended and rejects on an error of the request.  The drivers
    are embedded on requests whose promise settles; [request] further down
    has the one case where it does not. *)
Inductive settled : Type :=
  | Fulfilled (r : response)
  | Rejected (error : string).

Inductive exchange : Type :=
  | Download (bytes : number)
  | Upload (bytes : number).

(** The world a driver runs in: the network decides how the k-th request
    issued settles; [sent] is the requests issued so far, oldest first;
    [console] is the lines printed so far. *)
Record world : Type := World {
  network : nat → settled;
  sent : list exchange;
  console : list string;
}.

Definition issue (x : exchange) (w : world) : settled * world :=
  (network w (length (sent w)),
   {| network := network w; sent := sent w ++ [x]; console := console w |}).

Definition console_log (line : string) (w : world) : world :=
  {| network := network w; sent := sent w; console := console w ++ [line] |}.

Definition download (bytes : number) (w : world) : settled * world :=
  issue (Download bytes) w.

(** [upload], for a byte count that ['0'.repeat] accepts. *)
Definition upload (bytes : number) (w : world) : settled * world :=
  issue (Upload bytes) w.

Definition measureSpeed (bytes duration : number) : number :=
  div (div (mul bytes (of_Z 8)) (div duration (of_Z 1000))) (of_Z 1000000).

(** A normal or an abrupt completion. *)
Inductive completion (A : Type) : Type :=
  | Normal (a : A)
  | Throw (error : string).
Arguments Normal {A} a.
Arguments Throw {A} error.

(** Evaluation of an expression over the one array [measurements]: it may
    throw, and it may leave the array changed. *)
Definition Eval (A : Type) : Type := list number → completion (A * list number).

Global Instance Eval_ret : MRet Eval := λ A a measurements, Normal (a, measurements).
Global Instance Eval_bind : MBind Eval :=
  λ A B f m measurements,
    match m measurements with
    | Normal (a, measurements') => f a measurements'
    | Throw e => Throw e
    end.

(** [Math.min(...args)] and [Math.max(...args)] *)
Definition min2 (a b : number) : number :=
  if (isNaN a || isNaN b)%bool then NaN else if lt b a then b else a.
Definition max2 (a b : number) : number :=
  if (isNaN a || isNaN b)%bool then NaN else if lt a b then b else a.
Definition Math_min (args : list number) : number := foldl min2 PosInf args.
Definition Math_max (args : list number) : number := foldl max2 NegInf args.

Definition spread (f : list number → number) : Eval value :=
  λ measurements, Normal (VNum (f measurements), measurements).

(** [stats.name(measurements)]: a property the module object lacks is
    [undefined], and calling it throws.  A second parameter left out is
    [undefined], which the arithmetic of [quartile] turns into [NaN]. *)
Definition call_stats (name : string) : Eval value :=
  λ measurements,
    match stats.exports !! name with
    | Some (stats.Fn1 f) => Normal (f measurements)
    | Some (stats.Fn2 f) => Normal (f measurements NaN)
    | None => Throw ("TypeError: stats." +:+ name +:+ " is not a function")
    end.

(** An array literal evaluates its elements left to right and stops at the
    first one that throws. *)
Fixpoint array_literal (elements : list (Eval value)) : Eval (list value) :=
  match elements with
  | [] => mret []
  | e :: rest => v ← e; vs ← array_literal rest; mret (v :: vs)
  end.

(** The loop of [measureLatency]. *)
Definition measureLatency_loop (w : world) : list number * world :=
  for_upto 100
    (λ _ '(measurements, w),
       let '(outcome, w) := download (of_Z 200) w in
       match outcome with
       | Fulfilled response =>
           (measurements ++
              [sub (sub (ToNumber (at_index response 4))
                        (ToNumber (at_index response 0)))
                   (ToNumber (at_index response 6))],
            w)
       | Rejected error => (measurements, console_log ("Error: " +:+ error) w)
       end)
    ([], w).

(** The elements of the array [measureLatency] returns. *)
Definition measureLatency_summary : list (Eval value) :=
  [ spread Math_min;
    spread Math_max;
    call_stats "average";
    call_stats "median";
    call_stats "jitter";
    call_stats "jitterP95";
    call_stats "jitterP99";
    call_stats "p95";
    call_stats "p99" ].

Definition measureLatency (w : world) : completion (list value) * world :=
  let '(measurements, w) := measureLatency_loop w in
  (match array_literal measureLatency_summary measurements with
   | Normal (report, _) => Normal report
   | Throw e => Throw e
   end, w).

Definition measureDownload (bytes : number) (iterations : nat) (w : world)
  : list number * world :=
  for_upto iterations
    (λ _ '(measurements, w),
       let '(outcome, w) := download bytes w in
       match outcome with
       | Fulfilled response =>
           let transferTime :=
             sub (ToNumber (at_index response 5))
                 (ToNumber (at_index response 4)) in
           (measurements ++ [measureSpeed bytes transferTime], w)
       | Rejected error => (measurements, console_log ("Error: " +:+ error) w)
       end)
    ([], w).

Definition measureUpload (bytes : number) (iterations : nat) (w : world)
  : list number * world :=
  for_upto iterations
    (λ _ '(measurements, w),
       let '(outcome, w) := upload bytes w in
       match outcome with
       | Fulfilled response =>
           let transferTime := ToNumber (at_index response 6) in
           (measurements ++ [measureSpeed bytes transferTime], w)
       | Rejected error => (measurements, console_log ("Error: " +:+ error) w)
       end)
    ([], w).

(** ** What the network answers *)

(** The network's answers to the next [n] requests a driver issues. *)
Definition outcomes (w : world) (n : nat) : list settled :=
  (λ k, network w (length (sent w) + k)) <$> seq 0 n.

Definition fulfilled (l : list settled) : list response :=
  omap (λ s, match s with Fulfilled r => Some r | Rejected _ => None end) l.

Definition rejected (l : list settled) : list string :=
  omap (λ s, match s with Rejected e => Some e | Fulfilled _ => None end) l.

(** ** The statistics in the words of the specification *)

(** Jitter in the words of the specification: the arithmetic mean of
    [|xs[i] - xs[i+1]|] over consecutive indices, in collection order. *)
Definition Qc_abs (x : Qc) : Qc := if Qc_ltb x 0 then - x else x.

Fixpoint consecutive_differences (xs : list Qc) : list Qc :=
  match xs with
  | x :: (y :: _) as rest => Qc_abs (x - y) :: consecutive_differences rest
  | _ => []
  end.

Definition Qc_sum (xs : list Qc) : Qc := foldr Qcplus 0 xs.

Definition arithmetic_mean (xs : list Qc) : Qc :=
  Qc_sum xs / Qc_of_Z (Z.of_nat (length xs)).

(** The linear quantile in the words of the specification, on values that
    are already sorted. *)
Definition linear_quantile (sorted : list Qc) (q : Qc) : Qc :=
  let n := Z.of_nat (length sorted) in
  let pos := Qc_of_Z (n - 1) * q in
  let base := Qfloor pos in
  let frac := pos - Qc_of_Z base in
  let at_ (i : Z) := default 0 (sorted !! Z.to_nat i) in
  if (base =? n - 1)%Z then at_ base
  else at_ base + frac * (at_ (base + 1)%Z - at_ base).

(** The median in the words of the specification, on values that are already
    sorted. *)
Definition middle_value (sorted : list Qc) : Qc :=
  let n := length sorted in
  let at_ (i : nat) := default 0 (sorted !! i) in
  if Nat.odd n then at_ (n / 2)%nat
  else (at_ (n / 2 - 1)%nat + at_ (n / 2)%nat) / Qc_of_Z 2.

(** ** Sorting finite numbers *)

(** Insertion into a sorted list of rationals: what [sort_insert] does on
    finite numbers under the comparator [(a, b) => a - b]. *)
Fixpoint Qc_insert (x : Qc) (sorted : list Qc) : list Qc :=
  match sorted with
  | [] => [x]
  | y :: rest => if Qc_ltb y x then y :: Qc_insert x rest else x :: y :: rest
  end.

Definition Qc_sort (xs : list Qc) : list Qc := foldr Qc_insert [] xs.

(** ** The shape of a driver loop *)

(** The common shape of one iteration of a driver: issue the request; on
    success append one sample, on failure print one line. *)
Definition iteration (x : exchange) (sample : response → number)
    (st : list number * world) : list number * world :=
  let '(measurements, w) := st in
  let '(outcome, w) := issue x w in
  match outcome with
  | Fulfilled response => (measurements ++ [sample response], w)
  | Rejected error => (measurements, console_log ("Error: " +:+ error) w)
  end.

Definition latency_sample (r : response) : number :=
  sub (sub (ToNumber (ttfb r)) (started r)) (serverTiming r).

Definition download_sample (bytes : number) (r : response) : number :=
  measureSpeed bytes (sub (ended r) (ToNumber (ttfb r))).

Definition upload_sample (bytes : number) (r : response) : number :=
  measureSpeed bytes (serverTiming r).

Definition error_line (error : string) : string := "Error: " +:+ error.

(** An element of the report that always completes normally. *)
Definition total (e : Eval value) : Prop :=
  ∀ measurements, ∃ v measurements', e measurements = Normal (v, measurements').

(** ** Deciding equality of evaluated results *)

Definition value_eqb (a b : value) : bool :=
  match a, b with
  | VUndef, VUndef => true
  | VNum x, VNum y => number_eqb x y
  | _, _ => false
  end.

Fixpoint numbers_eqb (a b : list number) : bool :=
  match a, b with
  | [], [] => true
  | x :: a', y :: b' => number_eqb x y && numbers_eqb a' b'
  | _, _ => false
  end.

Fixpoint values_eqb (a b : list value) : bool :=
  match a, b with
  | [], [] => true
  | x :: a', y :: b' => value_eqb x y && values_eqb a' b'
  | _, _ => false
  end.

Definition report_eqb (a b : completion (list value * list number)) : bool :=
  match a, b with
  | Normal (vs, ms), Normal (vs', ms') => values_eqb vs vs' && numbers_eqb ms ms'
  | Throw e, Throw e' => bool_decide (e = e')
  | _, _ => false
  end.

(** ** Example worlds *)

(** A response with 52 ms to the first byte, of which the server reports
    2 ms. *)
Definition steady_response : response :=
  {| started := of_Z 1000;
     dnsLookup := VNum (of_Z 1010);
     tcpHandshake := VNum (of_Z 1020);
     sslHandshake := VNum (of_Z 1040);
     ttfb := VNum (of_Z 1052);
     ended := of_Z 1060;
     serverTiming := of_Z 2 |}.

Definition steady_world : world :=
  {| network := λ _, Fulfilled steady_response; sent := []; console := [] |}.

(** A network on which the second, fifth and ninth request fail. *)
Definition flaky_world : world :=
  {| network := λ k,
       match k with
       | 1 | 4 | 8 => Rejected "ECONNRESET"
       | _ => Fulfilled steady_response
       end;
     sent := [];
     console := [] |}.

(** ** The entry script: metadata and console report *)

(** The characters ['='] and ['\n']. *)
Definition equals_sign : Ascii.ascii := Ascii.ascii_of_nat 61.
Definition line_feed : Ascii.ascii := Ascii.ascii_of_nat 10.

(** [s.split(sep)] for a separator of one character: the pieces between the
    occurrences of [sep], at least one piece. *)
Fixpoint split (sep : Ascii.ascii) (s : string) : list string :=
  match s with
  | EmptyString => [EmptyString]
  | String c rest =>
      if Ascii.eqb c sep then EmptyString :: split sep rest
      else
        match split sep rest with
        | head :: tail => String c head :: tail
        | [] => [String c EmptyString]
        end
  end.

(** [data[k] = v] on an object created by [{}], for a string [v].  The
    object is embedded as the map of its own properties.  The key
    ["__proto__"] is the accessor of the prototype, whose setter ignores a
    value that is not an object; every other key becomes an own property. *)
Definition set_property (k v : string) (data : gmap string string)
  : gmap string string :=
  if decide (k = "__proto__") then data else <[k := v]> data.

(** A property key made from an array element that may be [undefined]. *)
Definition ToPropertyKey (k : option string) : string :=
  match k with
  | Some k => k
  | None => "undefined"
  end.

(** An entry of the parsed [/locations] response, as far as the script
    looks at it. *)
Record location : Type := Location {
  iata : string;
  city : string;
}.

(** The reduction of [fetchServerLocationData] over the parsed response
    [res]; fetching and [JSON.parse] stay outside. *)
Definition fetchServerLocationData (res : list location) : gmap string string :=
  foldl (λ data l, set_property (iata l) (city l) data) ∅ res.

(** [parseCfCdnCgiTrace] of [fetchCfCdnCgiTrace]. *)
Definition parseCfCdnCgiTrace (text : string) : gmap string string :=
  foldl
    (λ data kv,
       match kv.2 with
       | None => data
       | Some v => set_property (ToPropertyKey kv.1) v data
       end)
    ∅
    ((λ i, let j := split equals_sign i in (j !! 0%nat, j !! 1%nat))
       <$> split line_feed text).

(** What the script takes from outside its own text: the colouring
    functions of [chalk.js], and [Number.prototype.toFixed] with two
    digits, whose digits depend on the binary representation. *)
Record terminal : Type := Terminal {
  bold : string → string;
  red : string → string;
  green : string → string;
  blue : string → string;
  yellow : string → string;
  magenta : string → string;
  toFixed2 : number → string;
}.

(** [s.repeat(count)]: a negative count is a [RangeError]. *)
Definition String_repeat (s : string) (count : Z) : completion string :=
  if (count <? 0)%Z then
    Throw ("RangeError: Invalid count value: " +:+ pretty count)
  else Normal (foldr String.append "" (replicate (Z.to_nat count) s)).

(** [logInfo]: [console.log] joins its arguments with one space.  The
    length of [text] is counted in the characters of the embedded string,
    which is [text.length] for a label of ASCII characters. *)
Definition logInfo (t : terminal) (text data : string) (w : world)
  : completion world :=
  match String_repeat " " (15 - Z.of_nat (String.length text)) with
  | Normal pad =>
      Normal (console_log (pad +:+ " " +:+ text +:+ ":" +:+ " " +:+ blue t data) w)
  | Throw e => Throw e
  end.

Definition formatResult (t : terminal) (value : value) (unitName : string)
    (warnThreshold : number) (lowerBetter : bool) : completion string :=
  let cmpResult :=
    if lowerBetter then gt (ToNumber value) warnThreshold
    else lt (ToNumber value) warnThreshold in
  match value with
  | VUndef =>
      Throw "TypeError: Cannot read properties of undefined (reading 'toFixed')"
  | VNum n =>
      if cmpResult then
        Normal (bold t (red t (toFixed2 t n +:+ " " +:+ unitName +:+ " (WARN)")))
      else Normal (green t (toFixed2 t n +:+ " " +:+ unitName))
  end.

Definition formatLatency (t : terminal) (value : value)
    (warnThreshold : number) : completion string :=
  formatResult t value "ms" warnThreshold true.

Definition formatSpeed (t : terminal) (value : value)
    (warnThreshold : number) : completion string :=
  formatResult t value "Mbps" warnThreshold false.

(** [logDownloadSpeed] and [logUploadSpeed]: the line printed, or the
    exception; [tests] is left sorted by [quartile] either way. *)
Definition logDownloadSpeed (t : terminal) (tests : list number) (w : world)
  : completion world :=
  match formatSpeed t (returned (stats.quartile tests (ratio 9 10))) (of_Z 3) with
  | Normal text => Normal (console_log ("  Download speed:" +:+ " " +:+ text) w)
  | Throw e => Throw e
  end.

Definition logUploadSpeed (t : terminal) (tests : list number) (w : world)
  : completion world :=
  match formatSpeed t (returned (stats.quartile tests (ratio 9 10))) (of_Z 1) with
  | Normal text => Normal (console_log ("    Upload speed:" +:+ " " +:+ text) w)
  | Throw e => Throw e
  end.

(** A string without the character [c]. *)
Fixpoint free_of (c : Ascii.ascii) (s : string) : bool :=
  match s with
  | EmptyString => true
  | String c' rest => negb (Ascii.eqb c' c) && free_of c rest
  end.

(** The text of a trace: one [key=value] line per pair. *)
Fixpoint trace_text (pairs : list (string * string)) : string :=
  match pairs with
  | [] => ""
  | [(k, v)] => k +:+ "=" +:+ v
  | (k, v) :: rest => k +:+ "=" +:+ v +:+ String line_feed (trace_text rest)
  end.

(** One line of a trace. *)
Definition trace_line (kv : string * string) : string :=
  kv.1 +:+ "=" +:+ kv.2.

Definition plain_pair (kv : string * string) : Prop :=
  free_of equals_sign kv.1 = true ∧ free_of line_feed kv.1 = true
  ∧ free_of equals_sign kv.2 = true ∧ free_of line_feed kv.2 = true
  ∧ kv.1 ≠ "__proto__".

(** A terminal that marks the colours with tags. *)
Definition tagging_terminal : terminal :=
  {| bold := λ s, "<b>" +:+ s +:+ "</b>";
     red := λ s, "<red>" +:+ s +:+ "</red>";
     green := λ s, "<green>" +:+ s +:+ "</green>";
     blue := λ s, "<blue>" +:+ s +:+ "</blue>";
     yellow := λ s, "<yellow>" +:+ s +:+ "</yellow>";
     magenta := λ s, "<magenta>" +:+ s +:+ "</magenta>";
     toFixed2 := λ _, "0.00" |}.

(** A network on which every request fails. *)
Definition dead_world : world :=
  {| network := λ _, Rejected "ENOTFOUND"; sent := []; console := [] |}.

(** ** Order on the numbers, and what [request] makes of the network *)

(** [a <= b] for numbers other than [NaN]: [b < a] is false. *)
Definition nle (a b : number) : Prop := lt b a = false.

Definition is_finite (a : number) : bool :=
  match a with Fin _ => true | _ => false end.

(** [Number.MAX_VALUE], the largest finite number of the language. *)
Definition MAX_VALUE : Qc := Qc_of_Z (2 ^ 1024 - 2 ^ 971).

(** A finite number whose magnitude does not exceed [Number.MAX_VALUE]: the
    arithmetic of the language, which rounds, gives a finite number where
    the exact result is one of these. *)
Definition in_range (a : number) : bool :=
  match Math_abs a with
  | Fin x => negb (Qc_ltb MAX_VALUE x)
  | _ => false
  end.

Definition is_least (m : number) (xs : list number) : Prop :=
  m ∈ xs ∧ Forall (nle m) xs.

Definition is_greatest (m : number) (xs : list number) : Prop :=
  m ∈ xs ∧ Forall (λ x, nle x m) xs.

(** What the network delivers for one exchange, as [request] sees it: an
    ['error'] event of the request, or a response that ends, with the
    timestamps taken on the way and the headers of the response. *)
Inductive delivery : Type :=
  | ErrorEvent (error : string)
  | ResponseEnded (started : number)
      (dnsLookup tcpHandshake sslHandshake ttfb : value)
      (ended : number) (headers : gmap string string).

(** What comes of one call of [request]: its promise settles, or the
    ['end'] listener throws before it resolves.  Nothing catches that
    exception: the promise never settles, no handler of the caller runs, and
    the exception ends the process. *)
Inductive answer : Type :=
  | Settles (s : settled)
  | Uncaught (error : string).

(** [s.slice(start)] *)
Fixpoint String_slice (start : nat) (s : string) : string :=
  match start, s with
  | O, _ => s
  | S n, String _ rest => String_slice n rest
  | S _, EmptyString => EmptyString
  end.

(** [request], on what the network delivers.  The ['error'] listener
    rejects; the ['end'] listener builds the array it resolves with, whose
    last element is [parseFloat(res.headers['server-timing'].slice(22))]:
    without that header the receiver of [slice] is [undefined].
    [parseFloat] is the built-in of the language. *)
Definition request (parseFloat : string → number) (d : delivery) : answer :=
  match d with
  | ErrorEvent error => Settles (Rejected error)
  | ResponseEnded started dnsLookup tcpHandshake sslHandshake ttfb ended headers =>
      match headers !! "server-timing" with
      | Some header =>
          Settles (Fulfilled
            {| started := started;
               dnsLookup := dnsLookup;
               tcpHandshake := tcpHandshake;
               sslHandshake := sslHandshake;
               ttfb := ttfb;
               ended := ended;
               serverTiming := parseFloat (String_slice 22 header) |})
      | None =>
          Uncaught
            "TypeError: Cannot read properties of undefined (reading 'slice')"
      end
  end.

(** How the run of a driver ends: the loop runs to its end, or a listener
    of one of its requests throws, and the process ends there with the
    requests issued and the lines printed so far. *)
Inductive ending : Type :=
  | Returned (measurements : list number)
      (sent : list exchange) (console : list string)
  | Died (error : string) (sent : list exchange) (console : list string).

(** The loop of a driver on what the network delivers: the loop of
    [measureLatency], [measureDownload] and [measureUpload], with the
    promise that [request] makes in the place of an outcome that is already
    settled.  [wire k] is what the network delivers for the k-th request
    issued.  Each iteration awaits its request: the fulfilment handler
    appends one sample, the rejection handler prints one line, and neither
    runs when the promise does not settle. *)
Fixpoint drive (parseFloat : string → number) (wire : nat → delivery)
    (x : exchange) (sample : response → number) (iterations : nat)
    (measurements : list number) (sent : list exchange)
    (console : list string) : ending :=
  match iterations with
  | O => Returned measurements sent console
  | S rest =>
      match request parseFloat (wire (length sent)) with
      | Settles (Fulfilled response) =>
          drive parseFloat wire x sample rest
            (measurements ++ [sample response]) (sent ++ [x]) console
      | Settles (Rejected error) =>
          drive parseFloat wire x sample rest
            measurements (sent ++ [x]) (console ++ ["Error: " +:+ error])
      | Uncaught error => Died error (sent ++ [x]) console
      end
  end.

(** A response that ends without a [server-timing] header. *)
Definition bare_response : delivery :=
  ResponseEnded (of_Z 0) VUndef VUndef VUndef (VNum (of_Z 52)) (of_Z 60) ∅.

(** Two requests that fail with an error, then a response without the
    header. *)
Definition bare_wire (k : nat) : delivery :=
  match k with
  | 0 | 1 => ErrorEvent "ENOTFOUND"
  | _ => bare_response
  end.

(** ** Numbers *)

Lemma Qc_eqb_eq (a b : Qc) : Qc_eqb a b = true ↔ a = b.
Proof.
  unfold Qc_eqb. rewrite Qeq_bool_iff. split.
  - apply Qc_is_canon.
  - by intros ->.
Qed.

Lemma Qc_ltb_lt (a b : Qc) : Qc_ltb a b = true ↔ a < b.
Proof.
  unfold Qc_ltb. rewrite negb_true_iff, <-not_true_iff_false, Qle_bool_iff.
  rewrite Qclt_nge. reflexivity.
Qed.

Lemma Qc_ltb_ge (a b : Qc) : Qc_ltb a b = false ↔ b ≤ a.
Proof. rewrite <-not_true_iff_false, Qc_ltb_lt, Qcle_ngt. reflexivity. Qed.

Lemma Qc_ltb_irrefl (x : Qc) : Qc_ltb x x = false.
Proof. apply Qc_ltb_ge, Qcle_refl. Qed.

Lemma number_eqb_eq (a b : number) : number_eqb a b = true → a = b.
Proof.
  destruct a, b; simpl; try done. intros H. f_equal. by apply Qc_eqb_eq.
Qed.

Lemma number_eqb_neq (a b : number) : number_eqb a b = false → a ≠ b.
Proof.
  intros H ->. destruct b; simpl in H; try done.
  assert (Qc_eqb q q = true) by (by apply Qc_eqb_eq). congruence.
Qed.

Lemma value_eqb_eq (a b : value) : value_eqb a b = true → a = b.
Proof.
  destruct a, b; simpl; try done. intros H. f_equal. by apply number_eqb_eq.
Qed.

(** ** Sorting *)

Lemma compare_by_difference (x y : Qc) :
  gt (SortCompare sub (Fin x) (Fin y)) (of_Z 0) = Qc_ltb y x.
Proof.
  unfold gt, SortCompare, sub, of_Z; simpl.
  apply Bool.eq_iff_eq_true.
  rewrite !Qc_ltb_lt, Z2Qc_inj_0. symmetry. apply Qclt_minus_iff.
Qed.

Lemma sort_insert_Fin (x : Qc) (s : list Qc) :
  sort_insert sub (Fin x) (Fin <$> s) = Fin <$> Qc_insert x s.
Proof.
  induction s as [|y s IH]; [done|].
  cbn [fmap list_fmap sort_insert Qc_insert].
  rewrite compare_by_difference.
  destruct (Qc_ltb y x); [|done].
  cbn [fmap list_fmap]. f_equal. apply IH.
Qed.

Lemma Array_sort_Fin (qs : list Qc) :
  Array_sort sub (Fin <$> qs) = Fin <$> Qc_sort qs.
Proof.
  unfold Array_sort, Qc_sort.
  induction qs as [|x qs IH]; [done|].
  cbn [fmap list_fmap foldr]. rewrite IH. apply sort_insert_Fin.
Qed.

Lemma Qc_insert_perm (x : Qc) (s : list Qc) : Qc_insert x s ≡ₚ x :: s.
Proof.
  induction s as [|y s IH]; [done|]. simpl.
  destruct (Qc_ltb y x); [|done].
  rewrite IH. apply Permutation_swap.
Qed.

Lemma Qc_sort_perm (qs : list Qc) : Qc_sort qs ≡ₚ qs.
Proof.
  induction qs as [|x qs IH]; [done|].
  unfold Qc_sort in *. cbn [foldr]. rewrite Qc_insert_perm. by f_equiv.
Qed.

Lemma Qc_insert_sorted (x : Qc) (s : list Qc) :
  StronglySorted Qcle s → StronglySorted Qcle (Qc_insert x s).
Proof.
  induction 1 as [|y s Hs IH Hy]; simpl.
  - repeat constructor.
  - destruct (Qc_ltb y x) eqn:Hyx.
    + apply Qc_ltb_lt, Qclt_le_weak in Hyx.
      constructor; [done|].
      rewrite Qc_insert_perm. by constructor.
    + apply Qc_ltb_ge in Hyx.
      constructor; [by constructor|].
      constructor; [done|].
      eapply Forall_impl; [exact Hy|].
      intros z Hz. by trans y.
Qed.

Lemma Qc_sort_sorted (qs : list Qc) : StronglySorted Qcle (Qc_sort qs).
Proof.
  induction qs as [|x qs IH]; [constructor|].
  by apply Qc_insert_sorted.
Qed.

Lemma Qc_sort_unique (qs sorted : list Qc) :
  sorted ≡ₚ qs → Sorted Qcle sorted → Qc_sort qs = sorted.
Proof.
  intros Hp Hs.
  apply (StronglySorted_unique Qcle).
  - apply Qc_sort_sorted.
  - apply Sorted.Sorted_StronglySorted; [|done].
    intros x y z. apply Qcle_trans.
  - by rewrite Qc_sort_perm.
Qed.

Lemma Qc_sort_length (qs : list Qc) : length (Qc_sort qs) = length qs.
Proof. by rewrite Qc_sort_perm. Qed.

(** ** Array reads and integer arithmetic *)

Lemma aget_of_nat (values : list number) (i : nat) :
  aget values (of_nat i) =
    match values !! i with Some x => VNum x | None => VUndef end.
Proof.
  unfold aget, of_nat, of_Z; simpl.
  assert ((0 <=? Z.of_nat i)%Z = true) as -> by (apply Z.leb_le; lia).
  by rewrite Nat2Z.id.
Qed.

Lemma aget_Fin_of_nat (qs : list Qc) (i : nat) :
  aget (Fin <$> qs) (of_nat i) =
    match qs !! i with Some x => VNum (Fin x) | None => VUndef end.
Proof. rewrite aget_of_nat, list_lookup_fmap. by destruct (qs !! i). Qed.

Lemma of_Z_nat (z : Z) : (0 ≤ z)%Z → of_Z z = of_nat (Z.to_nat z).
Proof. intros Hz. unfold of_nat. by rewrite Z2Nat.id. Qed.

Lemma add_of_Z (a b : Z) : add (of_Z a) (of_Z b) = of_Z (a + b).
Proof. unfold of_Z; simpl. by rewrite Z2Qc_inj_add. Qed.

Lemma sub_of_Z (a b : Z) : sub (of_Z a) (of_Z b) = of_Z (a - b).
Proof. unfold of_Z, sub; simpl. by rewrite Z2Qc_inj_sub. Qed.

Lemma Qc_of_Z_nonzero (z : Z) : z ≠ 0%Z → Qc_eqb (Qc_of_Z z) 0 = false.
Proof.
  intros Hz. apply not_true_iff_false. rewrite Qc_eqb_eq, <-Z2Qc_inj_0.
  by intros ?%Z2Qc_inj.
Qed.

Lemma Qfloor_Qc_div (n m : Z) :
  Qfloor (Qc_of_Z n / Qc_of_Z m)%Qc = (n / m)%Z.
Proof.
  rewrite Zdiv_Qdiv. apply Qfloor_comp. simpl.
  rewrite !Qred_correct. reflexivity.
Qed.

Lemma half_of_length (n : nat) :
  Math_floor (div (of_nat n) (of_Z 2)) = of_nat (n / 2).
Proof.
  unfold of_nat at 1. unfold of_Z at 1 2. cbn [div].
  rewrite Qc_of_Z_nonzero by done. cbn [Math_floor].
  rewrite Qfloor_Qc_div. unfold of_nat. f_equal.
  rewrite Nat2Z.inj_div. done.
Qed.

(** ** Loops over an array *)

Lemma for_from_ext {St : Type} (i n : nat) (f g : nat → St → St) (s : St) :
  (∀ k s', i ≤ k < i + n → f k s' = g k s')%nat →
  for_from i n f s = for_from i n g s.
Proof.
  revert i s. induction n as [|n IH]; intros i s H; [done|].
  simpl. rewrite H by lia. apply IH. intros k s' Hk. apply H. lia.
Qed.

Lemma for_from_foldl {St : Type} (f : St → number → St)
    (pre suf : list number) (s : St) :
  for_from (length pre) (length suf)
    (λ i s, f s (ToNumber (aget (pre ++ suf) (of_nat i)))) s
  = foldl f s suf.
Proof.
  revert pre s. induction suf as [|x suf IH]; intros pre s; [done|].
  cbn [length for_from foldl].
  rewrite aget_of_nat, list_lookup_middle by done. cbn [ToNumber].
  specialize (IH (pre ++ [x]) (f s x)).
  rewrite length_app, <-(assoc_L (++)) in IH. cbn [length app] in IH.
  rewrite Nat.add_1_r in IH. apply IH.
Qed.

Lemma foldl_add_Fin (a : Qc) (qs : list Qc) :
  foldl add (Fin a) (Fin <$> qs) = Fin (a + Qc_sum qs).
Proof.
  revert a. induction qs as [|x qs IH]; intros a; simpl.
  - f_equal. unfold Qc_sum; simpl. ring.
  - rewrite IH. f_equal. unfold Qc_sum; simpl. ring.
Qed.

Lemma average_Fin (qs : list Qc) :
  stats.average (Fin <$> qs) =
    match qs with
    | [] => NaN
    | _ => Fin (arithmetic_mean qs)
    end.
Proof.
  unfold stats.average, for_upto.
  pose proof (for_from_foldl add [] (Fin <$> qs) (of_Z 0)) as H.
  cbn [length app] in H. rewrite H. clear H.
  unfold of_Z at 1. rewrite foldl_add_Fin, Z2Qc_inj_0, Qcplus_0_l.
  unfold length_of. rewrite length_fmap.
  destruct qs as [|x qs]; [done|].
  unfold of_nat, of_Z. cbn [div].
  rewrite Qc_of_Z_nonzero by (cbn [length]; lia). done.
Qed.

Lemma jitters_from (pre suf : list Qc) (acc : list number) :
  for_from (length pre) (length suf - 1)
    (λ i jitters,
       jitters ++
         [Math_abs (sub (ToNumber (aget (Fin <$> pre ++ suf) (of_nat i)))
                        (ToNumber (aget (Fin <$> pre ++ suf)
                                        (of_nat (i + 1)))))])
    acc
  = acc ++ (Fin <$> consecutive_differences suf).
Proof.
  revert pre acc. induction suf as [|x [|y suf] IH]; intros pre acc.
  - simpl. by rewrite app_nil_r.
  - simpl. by rewrite app_nil_r.
  - replace (length (x :: y :: suf) - 1)%nat with (S (length (y :: suf) - 1))
      by (cbn [length]; lia).
    cbn [for_from].
    rewrite !aget_Fin_of_nat.
    rewrite list_lookup_middle by done.
    replace (pre ++ x :: y :: suf) with ((pre ++ [x]) ++ y :: suf)
      by (by rewrite <-(assoc_L (++))).
    rewrite list_lookup_middle by (rewrite length_app; simpl; lia).
    cbn [ToNumber].
    specialize (IH (pre ++ [x]) (acc ++ [Math_abs (sub (Fin x) (Fin y))])).
    rewrite length_app in IH. cbn [length] in IH.
    rewrite Nat.add_1_r in IH. etrans; [exact IH|].
    rewrite <-(assoc_L (++)). done.
Qed.

Lemma jitters_Fin (qs : list Qc) :
  stats._jitters (Fin <$> qs) = Fin <$> consecutive_differences qs.
Proof.
  unfold stats._jitters, for_upto. rewrite length_fmap.
  replace (Z.to_nat (Z.of_nat (length qs) - 1)) with (length qs - 1)%nat by lia.
  apply (jitters_from [] qs []).
Qed.

(** ** [median] and [quartile] without the monad *)

Lemma median_unfold (values : list number) :
  stats.median values =
    let half := Math_floor (div (length_of values) (of_Z 2)) in
    let sorted := Array_sort sub values in
    if stats.odd_length sorted then ((aget sorted half, sorted), [half])
    else
      ((VNum (div (add (ToNumber (aget sorted (sub half (of_Z 1))))
                       (ToNumber (aget sorted half)))
                  (of_Z 2)), sorted),
       [sub half (of_Z 1); half]).
Proof.
  unfold stats.median. cbv zeta.
  destruct (stats.odd_length _); reflexivity.
Qed.

Lemma quartile_unfold (values : list number) (percentile : number) :
  stats.quartile values percentile =
    let sorted := Array_sort sub values in
    let pos := mul (sub (length_of sorted) (of_Z 1)) percentile in
    let base := Math_floor pos in
    let rest := sub pos base in
    let probe := add base (of_Z 1) in
    match aget sorted probe with
    | VNum next =>
        ((VNum (add (ToNumber (aget sorted base))
                    (mul rest (sub next (ToNumber (aget sorted base))))),
          sorted),
         [probe; base; probe; base])
    | VUndef => ((aget sorted base, sorted), [probe; base])
    end.
Proof.
  unfold stats.quartile. cbv zeta.
  unfold mbind, Reads_bind, read. cbn [fst snd].
  destruct (aget _ (add _ _)); reflexivity.
Qed.

Lemma odd_length_odd (values : list number) :
  stats.odd_length values = Nat.odd (length values).
Proof.
  unfold stats.odd_length.
  rewrite (Nat.div2_odd (length values)) at 1.
  rewrite Nat.add_comm, Nat.mul_comm, Nat.Div0.mod_add.
  by destruct (Nat.odd _).
Qed.

Lemma median_array (qs : list Qc) :
  array_after (stats.median (Fin <$> qs)) = Fin <$> Qc_sort qs.
Proof.
  rewrite median_unfold. cbv zeta. rewrite Array_sort_Fin.
  by destruct (stats.odd_length _).
Qed.

Lemma quartile_array (qs : list Qc) (percentile : number) :
  array_after (stats.quartile (Fin <$> qs) percentile) = Fin <$> Qc_sort qs.
Proof.
  rewrite quartile_unfold. cbv zeta. rewrite Array_sort_Fin.
  by destruct (aget _ _).
Qed.

Lemma aget_inside (s : list Qc) (i : nat) :
  (i < length s)%nat →
  aget (Fin <$> s) (of_nat i) = VNum (Fin (default 0 (s !! i))).
Proof.
  intros [x Hx]%lookup_lt_is_Some_2. by rewrite aget_Fin_of_nat, Hx.
Qed.

Lemma aget_outside (s : list Qc) (i : nat) :
  (length s ≤ i)%nat → aget (Fin <$> s) (of_nat i) = VUndef.
Proof.
  intros Hi. by rewrite aget_Fin_of_nat, lookup_ge_None_2.
Qed.

Lemma median_sorted (qs : list Qc) :
  qs ≠ [] →
  returned (stats.median (Fin <$> qs)) = VNum (Fin (middle_value (Qc_sort qs))).
Proof.
  intros Hne. rewrite median_unfold. cbv zeta.
  rewrite Array_sort_Fin, odd_length_odd, !length_fmap, Qc_sort_length.
  unfold length_of. rewrite length_fmap, half_of_length.
  unfold middle_value. rewrite Qc_sort_length.
  assert (0 < length qs)%nat as Hlen by (destruct qs; [done|simpl; lia]).
  pose proof (Nat.div2_odd (length qs)) as Hdiv.
  rewrite <-Nat.div2_div.
  destruct (Nat.odd (length qs)) eqn:Hodd; unfold returned; cbn [fst].
  - rewrite aget_inside by (rewrite Qc_sort_length; simpl in Hdiv; lia).
    done.
  - simpl in Hdiv.
    unfold of_nat at 1. rewrite sub_of_Z.
    rewrite of_Z_nat by lia.
    replace (Z.to_nat (Z.of_nat (Nat.div2 (length qs)) - 1))
      with (Nat.div2 (length qs) - 1)%nat by lia.
    rewrite !aget_inside by (rewrite Qc_sort_length; lia).
    cbn [ToNumber add]. unfold of_Z. cbn [div].
    rewrite Qc_of_Z_nonzero by done. done.
Qed.

Lemma Qfloor_of_Z (z : Z) : Qfloor (Qc_of_Z z) = z.
Proof. apply Qfloor_Z. Qed.

(** For a fraction [q] of the unit interval the base index stays inside the
    array. *)
Lemma base_in_range (n : Z) (q : Qc) :
  (1 ≤ n)%Z → 0 ≤ q → q ≤ 1 →
  (0 ≤ Qfloor (Qc_of_Z (n - 1) * q)%Qc ≤ n - 1)%Z.
Proof.
  intros Hn H0 H1.
  assert (0 ≤ Qc_of_Z (n - 1)) as Hpos.
  { rewrite <-Z2Qc_inj_0. apply (proj1 (Z2Qc_inj_le 0 (n - 1))). lia. }
  split.
  - rewrite <-(Qfloor_of_Z 0). apply Qfloor_resp_le.
    change (Qc_of_Z 0 ≤ Qc_of_Z (n - 1) * q).
    rewrite Z2Qc_inj_0. by apply Qcmult_nonneg_nonneg.
  - rewrite <-(Qfloor_of_Z (n - 1)) at 2. apply Qfloor_resp_le.
    change (Qc_of_Z (n - 1) * q ≤ Qc_of_Z (n - 1)).
    rewrite <-(Qcmult_1_r (Qc_of_Z (n - 1))) at 2.
    by apply Qcmult_le_mono_nonneg_l.
Qed.

Lemma quartile_sorted (qs : list Qc) (q : Qc) :
  qs ≠ [] → 0 ≤ q → q ≤ 1 →
  returned (stats.quartile (Fin <$> qs) (Fin q))
  = VNum (Fin (linear_quantile (Qc_sort qs) q)).
Proof.
  intros Hne H0 H1. rewrite quartile_unfold. cbv zeta.
  rewrite Array_sort_Fin. unfold length_of. rewrite length_fmap.
  unfold linear_quantile.
  assert (1 ≤ Z.of_nat (length (Qc_sort qs)))%Z as Hlen.
  { rewrite Qc_sort_length. destruct qs; [done|simpl; lia]. }
  set (n := Z.of_nat (length (Qc_sort qs))) in *.
  unfold of_nat. fold n. rewrite sub_of_Z.
  pose proof (base_in_range n q Hlen H0 H1) as Hb.
  set (pos := Qc_of_Z (n - 1) * q) in *.
  set (b := Qfloor pos) in *.
  change (mul (of_Z (n - 1)) (Fin q)) with (Fin pos).
  change (Math_floor (Fin pos)) with (of_Z b).
  rewrite add_of_Z.
  rewrite (of_Z_nat b), (of_Z_nat (b + 1)) by lia.
  destruct (b =? n - 1)%Z eqn:Hlast.
  - apply Z.eqb_eq in Hlast.
    rewrite aget_outside by lia.
    rewrite aget_inside by lia. done.
  - apply Z.eqb_neq in Hlast.
    rewrite !aget_inside by lia. unfold returned. cbn [fst ToNumber].
    rewrite <-(of_Z_nat b) by lia. unfold of_Z, sub. cbn [neg add mul].
    done.
Qed.

Lemma quartile_reads_last (qs : list Qc) :
  qs ≠ [] →
  indices_read (stats.quartile (Fin <$> qs) (of_Z 1))
  = [of_nat (length qs); of_nat (length qs - 1)].
Proof.
  intros Hne. rewrite quartile_unfold. cbv zeta.
  rewrite Array_sort_Fin. unfold length_of. rewrite length_fmap, Qc_sort_length.
  assert (1 ≤ length qs)%nat as Hlen by (destruct qs; [done|simpl; lia]).
  unfold of_nat. rewrite sub_of_Z.
  change (mul (of_Z ?z) (of_Z 1)) with (Fin (Qc_of_Z z * Qc_of_Z 1)).
  rewrite Z2Qc_inj_1, Qcmult_1_r.
  change (Math_floor (Fin (Qc_of_Z ?z))) with (of_Z (Qfloor (Qc_of_Z z))).
  rewrite Qfloor_of_Z, add_of_Z.
  replace (Z.of_nat (length qs) - 1 + 1)%Z with (Z.of_nat (length qs)) by lia.
  fold (of_nat (length qs)).
  rewrite aget_outside by (rewrite Qc_sort_length; lia).
  unfold indices_read. cbn [snd]. do 2 f_equal.
  f_equal. lia.
Qed.

(** ** The driver loops *)

Lemma outcomes_S (w : world) (x : exchange) (n : nat) :
  outcomes w (S n) =
    network w (length (sent w)) :: outcomes (issue x w).2 n.
Proof.
  unfold outcomes. cbn [seq fmap list_fmap issue snd network sent].
  rewrite Nat.add_0_r. f_equal.
  rewrite <-fmap_S_seq, <-list_fmap_compose.
  apply list_fmap_ext. intros _ k _. cbn. rewrite length_app. cbn.
  f_equal. lia.
Qed.

Lemma loop_skips_failures (x : exchange) (sample : response → number)
    (i n : nat) (measurements : list number) (w : world) :
  for_from i n (λ _, iteration x sample) (measurements, w) =
    (measurements ++ (sample <$> fulfilled (outcomes w n)),
     {| network := network w;
        sent := sent w ++ replicate n x;
        console := console w ++ (error_line <$> rejected (outcomes w n)) |}).
Proof.
  revert i measurements w. induction n as [|n IH]; intros i measurements w.
  - cbn. rewrite !app_nil_r. by destruct w.
  - rewrite (outcomes_S w x). cbn [for_from].
    unfold iteration at 2. cbn [issue].
    destruct (network w (length (sent w))) as [r|e] eqn:Hk.
    + rewrite IH. cbn [fulfilled rejected omap list_omap fmap list_fmap
                       network sent console issue snd].
      fold (fulfilled (outcomes (issue x w).2 n)).
      rewrite <-!(assoc_L (++)). done.
    + rewrite IH. cbn [fulfilled rejected omap list_omap fmap list_fmap
                       network sent console issue snd console_log].
      rewrite <-!(assoc_L (++)). done.
Qed.

Lemma measureLatency_loop_eq (w : world) :
  measureLatency_loop w =
    for_from 0 100 (λ _, iteration (Download (of_Z 200)) latency_sample) ([], w).
Proof.
  unfold measureLatency_loop, for_upto. apply for_from_ext.
  intros k [ms w'] _. cbn. by destruct (network w' _) as [[]|].
Qed.

Lemma measureDownload_eq (bytes : number) (iterations : nat) (w : world) :
  measureDownload bytes iterations w =
    for_from 0 iterations
      (λ _, iteration (Download bytes) (download_sample bytes)) ([], w).
Proof.
  unfold measureDownload, for_upto. apply for_from_ext.
  intros k [ms w'] _. cbn. by destruct (network w' _) as [[]|].
Qed.

Lemma measureUpload_eq (bytes : number) (iterations : nat) (w : world) :
  measureUpload bytes iterations w =
    for_from 0 iterations
      (λ _, iteration (Upload bytes) (upload_sample bytes)) ([], w).
Proof.
  unfold measureUpload, for_upto. apply for_from_ext.
  intros k [ms w'] _. cbn. by destruct (network w' _) as [[]|].
Qed.

Lemma fulfilled_rejected_length (l : list settled) :
  (length (fulfilled l) + length (rejected l) = length l)%nat.
Proof.
  induction l as [|[r|e] l IH]; cbn; [done| |];
    fold (fulfilled l); fold (rejected l); lia.
Qed.

Lemma outcomes_length (w : world) (n : nat) : length (outcomes w n) = n.
Proof. unfold outcomes. by rewrite length_fmap, length_seq. Qed.

(** ** Evaluating the report of [measureLatency] *)

Lemma spread_total (f : list number → number) : total (spread f).
Proof. intros ms. by eexists _, _. Qed.

Lemma call_stats_total (name : string) (f : list number → value * list number) :
  stats.exports !! name = Some (stats.Fn1 f) → total (call_stats name).
Proof.
  intros H ms. unfold call_stats. rewrite H.
  destruct (f ms) as [v ms']. by eexists _, _.
Qed.

Lemma call_stats_missing (name : string) (measurements : list number) :
  stats.exports !! name = None →
  call_stats name measurements =
    Throw ("TypeError: stats." +:+ name +:+ " is not a function").
Proof. intros H. unfold call_stats. by rewrite H. Qed.

Lemma array_literal_throws (before after : list (Eval value)) (e : Eval value)
    (error : string) (measurements : list number) :
  Forall total before →
  (∀ ms, e ms = Throw error) →
  array_literal (before ++ e :: after) measurements = Throw error.
Proof.
  intros Hbefore He. revert measurements.
  induction Hbefore as [|e' before He' _ IH]; intros ms.
  - cbn [app array_literal]. unfold mbind, Eval_bind. by rewrite He.
  - cbn [app array_literal]. unfold mbind at 1, Eval_bind at 1.
    destruct (He' ms) as (v & ms' & ->).
    unfold mbind at 1, Eval_bind at 1. by rewrite IH.
Qed.

Lemma constant_samples (f : nat → settled) (sample : response → number)
    (c : number) (i n : nat) :
  (∀ k, i ≤ k < i + n → ∃ r, f k = Fulfilled r ∧ sample r = c)%nat →
  sample <$> fulfilled (f <$> seq i n) = replicate n c.
Proof.
  revert i. induction n as [|n IH]; intros i H; [done|].
  cbn [seq fmap list_fmap fulfilled omap list_omap].
  destruct (H i) as (r & -> & <-); [lia|].
  cbn [fmap list_fmap replicate]. f_equal.
  apply IH. intros k Hk. apply H. lia.
Qed.

(** ** Equality of evaluated results *)

Lemma numbers_eqb_eq (a b : list number) : numbers_eqb a b = true → a = b.
Proof.
  revert b. induction a as [|x a IH]; intros [|y b]; simpl; try done.
  intros [Hx Hab]%andb_true_iff. f_equal; [by apply number_eqb_eq|by apply IH].
Qed.

Lemma values_eqb_eq (a b : list value) : values_eqb a b = true → a = b.
Proof.
  revert b. induction a as [|x a IH]; intros [|y b]; simpl; try done.
  intros [Hx Hab]%andb_true_iff. f_equal; [by apply value_eqb_eq|by apply IH].
Qed.

Lemma report_eqb_eq (a b : completion (list value * list number)) :
  report_eqb a b = true → a = b.
Proof.
  destruct a as [[vs ms]|e], b as [[vs' ms']|e']; simpl; try done.
  - intros [Hv Hm]%andb_true_iff.
    by rewrite (values_eqb_eq _ _ Hv), (numbers_eqb_eq _ _ Hm).
  - intros H%bool_decide_eq_true. by subst.
Qed.

Lemma Qc_le_check (a b : Qc) : Qle_bool a b = true → a ≤ b.
Proof. apply Qle_bool_iff. Qed.

(** ** Order and sorting on all numbers but [NaN] *)

Lemma in_range_finite (a : number) : in_range a = true → is_finite a = true.
Proof. by destruct a. Qed.

Lemma nle_refl (a : number) : nle a a.
Proof. unfold nle. destruct a; [apply Qc_ltb_irrefl|done..]. Qed.

Lemma nle_trans (a b c : number) :
  isNaN b = false → nle a b → nle b c → nle a c.
Proof.
  unfold nle. destruct a as [x| | |], b as [y| | |], c as [z| | |];
    cbn; try done.
  rewrite !Qc_ltb_ge. intros _ Hxy Hyz. by trans y.
Qed.

Lemma nle_antisym (a b : number) :
  isNaN a = false → isNaN b = false → nle a b → nle b a → a = b.
Proof.
  unfold nle. destruct a as [x| | |], b as [y| | |]; cbn; try done.
  rewrite !Qc_ltb_ge. intros _ _ Hxy Hyx. f_equal. by apply Qcle_antisym.
Qed.

Lemma lt_nle (a b : number) : lt a b = true → nle a b.
Proof.
  unfold nle. destruct a as [x| | |], b as [y| | |]; cbn; try done.
  rewrite Qc_ltb_lt, Qc_ltb_ge. apply Qclt_le_weak.
Qed.

(** The comparator [(a, b) => a - b] orders all numbers but [NaN]: the
    difference of two equal infinities is [NaN], which counts as [+0]. *)
Lemma compare_numbers_by_difference (x y : number) :
  isNaN x = false → isNaN y = false →
  gt (SortCompare sub x y) (of_Z 0) = lt y x.
Proof.
  destruct x as [a| | |], y as [b| | |]; try done.
  intros _ _. apply compare_by_difference.
Qed.

Lemma sort_insert_perm (comparefn : number → number → number) (x : number)
    (s : list number) :
  sort_insert comparefn x s ≡ₚ x :: s.
Proof.
  induction s as [|y s IH]; [done|]. cbn [sort_insert].
  destruct (gt _ _); [|done]. rewrite IH. apply Permutation_swap.
Qed.

Lemma Array_sort_perm (comparefn : number → number → number)
    (xs : list number) :
  Array_sort comparefn xs ≡ₚ xs.
Proof.
  unfold Array_sort. induction xs as [|x xs IH]; [done|].
  cbn [foldr]. rewrite sort_insert_perm. by f_equiv.
Qed.

Lemma sort_insert_sorted (x : number) (s : list number) :
  isNaN x = false → Forall (λ y, isNaN y = false) s →
  StronglySorted nle s → StronglySorted nle (sort_insert sub x s).
Proof.
  intros Hx Hs Hsorted. induction Hsorted as [|y s Hsorted IH Hy].
  - repeat constructor.
  - apply Forall_cons in Hs as [Hy' Hs]. cbn [sort_insert].
    rewrite compare_numbers_by_difference by done.
    destruct (lt y x) eqn:Hyx.
    + constructor; [by apply IH|].
      rewrite sort_insert_perm. constructor; [by apply lt_nle|done].
    + constructor; [by constructor|].
      constructor; [done|].
      eapply Forall_impl; [exact Hy|].
      intros z Hz. by apply (nle_trans x y z).
Qed.

Lemma Array_sort_sorted (xs : list number) :
  Forall (λ y, isNaN y = false) xs → StronglySorted nle (Array_sort sub xs).
Proof.
  induction 1 as [|x xs Hx Hxs IH]; [constructor|].
  change (Array_sort sub (x :: xs))
    with (sort_insert sub x (Array_sort sub xs)).
  apply sort_insert_sorted; [done| |done].
  by rewrite Array_sort_perm.
Qed.

Lemma sorted_lookup_nle (s : list number) (i j : nat) (x y : number) :
  StronglySorted nle s → (i ≤ j)%nat →
  s !! i = Some x → s !! j = Some y → nle x y.
Proof.
  intros Hs. revert i j. induction Hs as [|z s Hs IH Hz]; intros i j Hij Hi Hj.
  - done.
  - destruct i as [|i], j as [|j]; simplify_eq/=.
    + apply nle_refl.
    + eapply Forall_lookup_1 in Hz; [done|exact Hj].
    + lia.
    + eapply IH; [|done..]. lia.
Qed.

Lemma is_least_unique (m m' : number) (xs : list number) :
  Forall (λ y, isNaN y = false) xs →
  is_least m xs → is_least m' xs → m = m'.
Proof.
  intros Hxs [Hin Hle] [Hin' Hle'].
  apply nle_antisym.
  - by eapply Forall_forall in Hxs.
  - by eapply Forall_forall in Hxs.
  - by eapply Forall_forall in Hle.
  - by eapply Forall_forall in Hle'.
Qed.

Lemma is_greatest_unique (m m' : number) (xs : list number) :
  Forall (λ y, isNaN y = false) xs →
  is_greatest m xs → is_greatest m' xs → m = m'.
Proof.
  intros Hxs [Hin Hle] [Hin' Hle'].
  apply nle_antisym.
  - by eapply Forall_forall in Hxs.
  - by eapply Forall_forall in Hxs.
  - by eapply Forall_forall in Hle'.
  - by eapply Forall_forall in Hle.
Qed.

Lemma min2_least (a b : number) :
  isNaN a = false → isNaN b = false →
  isNaN (min2 a b) = false ∧ nle (min2 a b) a ∧ nle (min2 a b) b
  ∧ (min2 a b = a ∨ min2 a b = b).
Proof.
  intros Ha Hb. unfold min2. rewrite Ha, Hb. cbn [orb].
  destruct (lt b a) eqn:E.
  - split_and!; [done|by apply lt_nle|apply nle_refl|by right].
  - split_and!; [done|apply nle_refl|exact E|by left].
Qed.

Lemma max2_greatest (a b : number) :
  isNaN a = false → isNaN b = false →
  isNaN (max2 a b) = false ∧ nle a (max2 a b) ∧ nle b (max2 a b)
  ∧ (max2 a b = a ∨ max2 a b = b).
Proof.
  intros Ha Hb. unfold max2. rewrite Ha, Hb. cbn [orb].
  destruct (lt a b) eqn:E.
  - split_and!; [done|by apply lt_nle|apply nle_refl|by right].
  - split_and!; [done|apply nle_refl|exact E|by left].
Qed.

Lemma foldl_min2_least (a : number) (xs : list number) :
  isNaN a = false → Forall (λ y, isNaN y = false) xs →
  isNaN (foldl min2 a xs) = false ∧ is_least (foldl min2 a xs) (a :: xs).
Proof.
  intros Ha Hxs. revert a Ha. induction Hxs as [|x xs Hx _ IH]; intros a Ha.
  - split; [done|]. split; [by left|].
    constructor; [apply nle_refl|constructor].
  - cbn [foldl].
    destruct (min2_least a x Ha Hx) as (Hm & Hma & Hmx & Hor).
    destruct (IH _ Hm) as (Hr & Hin & Hle).
    apply Forall_cons in Hle as [Hrm Hle].
    split; [done|]. split.
    + apply elem_of_cons in Hin as [->|Hin].
      * destruct Hor as [->| ->]; [by left|by right; left].
      * by do 2 right.
    + constructor; [by apply (nle_trans _ (min2 a x))|].
      constructor; [by apply (nle_trans _ (min2 a x))|done].
Qed.

Lemma foldl_max2_greatest (a : number) (xs : list number) :
  isNaN a = false → Forall (λ y, isNaN y = false) xs →
  isNaN (foldl max2 a xs) = false ∧ is_greatest (foldl max2 a xs) (a :: xs).
Proof.
  intros Ha Hxs. revert a Ha. induction Hxs as [|x xs Hx _ IH]; intros a Ha.
  - split; [done|]. split; [by left|].
    constructor; [apply nle_refl|constructor].
  - cbn [foldl].
    destruct (max2_greatest a x Ha Hx) as (Hm & Hma & Hmx & Hor).
    destruct (IH _ Hm) as (Hr & Hin & Hle).
    apply Forall_cons in Hle as [Hrm Hle].
    split; [done|]. split.
    + apply elem_of_cons in Hin as [->|Hin].
      * destruct Hor as [->| ->]; [by left|by right; left].
      * by do 2 right.
    + constructor; [by apply (nle_trans _ (max2 a x))|].
      constructor; [by apply (nle_trans _ (max2 a x))|done].
Qed.

Lemma Math_min_least (xs : list number) :
  xs ≠ [] → Forall (λ y, isNaN y = false) xs → is_least (Math_min xs) xs.
Proof.
  intros Hne Hxs. destruct xs as [|x xs]; [done|].
  apply Forall_cons in Hxs as [Hx Hxs].
  unfold Math_min. cbn [foldl].
  assert (min2 PosInf x = x) as -> by (by destruct x).
  by apply foldl_min2_least.
Qed.

Lemma Math_max_greatest (xs : list number) :
  xs ≠ [] → Forall (λ y, isNaN y = false) xs → is_greatest (Math_max xs) xs.
Proof.
  intros Hne Hxs. destruct xs as [|x xs]; [done|].
  apply Forall_cons in Hxs as [Hx Hxs].
  unfold Math_max. cbn [foldl].
  assert (max2 NegInf x = x) as -> by (by destruct x).
  by apply foldl_max2_greatest.
Qed.

Lemma sorted_first_is_least (s xs : list number) (a : number) :
  s ≡ₚ xs → StronglySorted nle s → s !! 0%nat = Some a → is_least a xs.
Proof.
  intros Hp Hs Ha. destruct s as [|a' s]; simplify_eq/=.
  unfold is_least. rewrite <-Hp. split; [by left|].
  apply StronglySorted_cons in Hs as [Hm _].
  constructor; [apply nle_refl|done].
Qed.

Lemma sorted_last_is_greatest (s xs : list number) (b : number) :
  s ≡ₚ xs → StronglySorted nle s → s !! (length s - 1)%nat = Some b →
  is_greatest b xs.
Proof.
  intros Hp Hs Hb. unfold is_greatest. rewrite <-Hp. split.
  - by eapply list_elem_of_lookup_2.
  - apply Forall_lookup_2. intros i x Hx.
    apply (sorted_lookup_nle s i (length s - 1) x b); [done| |done..].
    apply lookup_lt_Some in Hx. lia.
Qed.

Lemma aget_in (values : list number) (i : nat) (x : number) :
  values !! i = Some x → aget values (of_nat i) = VNum x.
Proof. intros H. by rewrite aget_of_nat, H. Qed.

Lemma aget_out (values : list number) (i : nat) :
  (length values ≤ i)%nat → aget values (of_nat i) = VUndef.
Proof. intros H. by rewrite aget_of_nat, lookup_ge_None_2. Qed.

(** [quartile(values, 1)] on any non-empty array: the reads and the result,
    in terms of the array the sort leaves. *)
Lemma quartile_at_one (values : list number) (last : number) :
  let sorted := Array_sort sub values in
  sorted !! (length values - 1)%nat = Some last →
  values ≠ [] →
  stats.quartile values (of_Z 1)
  = ((VNum last, sorted), [of_nat (length values); of_nat (length values - 1)]).
Proof.
  cbv zeta. intros Hlast Hne. rewrite quartile_unfold. cbv zeta.
  assert (length (Array_sort sub values) = length values) as Hlen
    by (by rewrite Array_sort_perm).
  assert (1 ≤ length values)%nat as Hpos by (destruct values; [done|simpl; lia]).
  unfold length_of. rewrite Hlen. unfold of_nat. rewrite sub_of_Z.
  change (mul (of_Z ?z) (of_Z 1)) with (Fin (Qc_of_Z z * Qc_of_Z 1)).
  rewrite Z2Qc_inj_1, Qcmult_1_r.
  change (Math_floor (Fin (Qc_of_Z ?z))) with (of_Z (Qfloor (Qc_of_Z z))).
  rewrite Qfloor_of_Z, add_of_Z.
  replace (Z.of_nat (length values) - 1 + 1)%Z with (Z.of_nat (length values))
    by lia.
  replace (Z.of_nat (length values) - 1)%Z
    with (Z.of_nat (length values - 1)) by lia.
  fold (of_nat (length values)). fold (of_nat (length values - 1)).
  rewrite aget_out by lia. by rewrite (aget_in _ _ _ Hlast).
Qed.

Lemma aget_first (values : list number) (x : number) :
  values !! 0%nat = Some x → aget values (of_Z 0) = VNum x.
Proof. apply (aget_in values 0). Qed.

Lemma aget_second (values : list number) :
  aget values (of_Z 1) =
    match values !! 1%nat with Some x => VNum x | None => VUndef end.
Proof. apply (aget_of_nat values 1). Qed.

Lemma zero_minus_zero : sub (Fin 0) (of_Z 0) = of_Z 0.
Proof. apply number_eqb_eq. vm_compute. reflexivity. Qed.

(** [quartile(values, 0)] on any non-empty array, in terms of the array the
    sort leaves: its first element when there is no second one, and
    otherwise [first + 0 * (second - first)]. *)
Lemma quartile_at_zero (values : list number) (first : number) :
  let sorted := Array_sort sub values in
  sorted !! 0%nat = Some first →
  returned (stats.quartile values (of_Z 0))
  = VNum match sorted !! 1%nat with
         | None => first
         | Some second =>
             add first (mul (of_Z 0) (sub second first))
         end.
Proof.
  cbv zeta. intros Hfirst. rewrite quartile_unfold. cbv zeta.
  unfold length_of, of_nat. rewrite sub_of_Z.
  change (mul (of_Z ?z) (of_Z 0)) with (Fin (Qc_of_Z z * Qc_of_Z 0)).
  rewrite Z2Qc_inj_0, Qcmult_0_r.
  change (Math_floor (Fin 0)) with (of_Z 0).
  rewrite zero_minus_zero, add_of_Z. change (0 + 1)%Z with 1%Z.
  rewrite aget_second, (aget_first _ _ Hfirst).
  by destruct (Array_sort sub values !! 1%nat).
Qed.

Lemma interpolate_from_zero (first second : number) :
  isNaN first = false → isNaN second = false →
  add first (mul (of_Z 0) (sub second first))
  = if is_finite (sub second first) then first else NaN.
Proof.
  destruct first as [a| | |], second as [b| | |]; try done.
  intros _ _. unfold of_Z, sub. cbn. f_equal.
  rewrite Z2Qc_inj_0. ring.
Qed.

(** ** The drivers on what the network delivers *)

Lemma request_without_server_timing (parseFloat : string → number)
    (start : number) (dns tcp ssl firstByte : value) (finish : number)
    (headers : gmap string string) :
  headers !! "server-timing" = None →
  request parseFloat (ResponseEnded start dns tcp ssl firstByte finish headers)
  = Uncaught "TypeError: Cannot read properties of undefined (reading 'slice')".
Proof. intros H. unfold request. by rewrite H. Qed.

Lemma outcomes_snoc (w : world) (n : nat) :
  outcomes w (S n) = outcomes w n ++ [network w (length (sent w) + n)].
Proof. unfold outcomes. by rewrite seq_S, fmap_app. Qed.


Lemma drive_dies (parseFloat : string → number) (wire : nat → delivery)
    (x : exchange) (sample : response → number) (n k : nat) (error : string)
    (measurements : list number) (w : world) :
  (k < n)%nat →
  (∀ j, (j < k)%nat →
        request parseFloat (wire (length (sent w) + j)%nat)
        = Settles (network w (length (sent w) + j))) →
  request parseFloat (wire (length (sent w) + k)%nat) = Uncaught error →
  drive parseFloat wire x sample n measurements (sent w) (console w)
  = Died error (sent w ++ replicate (S k) x)
      (console w ++ (error_line <$> rejected (outcomes w k))).
Proof.
  revert n measurements w.
  induction k as [|k IH]; intros n measurements w Hk Hall Hdie.
  - destruct n as [|n]; [lia|]. rewrite Nat.add_0_r in Hdie.
    cbn [drive]. rewrite Hdie. cbn. by rewrite app_nil_r.
  - destruct n as [|n]; [lia|].
    pose proof (Hall 0%nat ltac:(lia)) as H0. rewrite Nat.add_0_r in H0.
    assert (∀ w', network w' = network w → sent w' = sent w ++ [x] →
              (∀ j, (j < k)%nat →
                 request parseFloat (wire (length (sent w') + j)%nat)
                 = Settles (network w' (length (sent w') + j)))
              ∧ request parseFloat (wire (length (sent w') + k)%nat)
                = Uncaught error) as Hrest.
    { intros w' Hn Hs. rewrite Hn, Hs, length_app. cbn [length]. split.
      - intros j Hj.
        replace (length (sent w) + 1 + j)%nat
          with (length (sent w) + S j)%nat by lia.
        apply Hall. lia.
      - replace (length (sent w) + 1 + k)%nat
          with (length (sent w) + S k)%nat by lia.
        exact Hdie. }
    rewrite (outcomes_S w x). cbn [drive]. rewrite H0.
    destruct (network w (length (sent w))) as [r|e].
    + destruct (Hrest (issue x w).2 eq_refl eq_refl) as [Hall' Hdie'].
      rewrite (IH n _ (issue x w).2 ltac:(lia) Hall' Hdie').
      cbn [fulfilled rejected omap list_omap fmap list_fmap
           network sent console issue snd replicate].
      by rewrite <-!(assoc_L (++)).
    + destruct (Hrest (console_log (error_line e) (issue x w).2)
                  eq_refl eq_refl) as [Hall' Hdie'].
      rewrite (IH n _ (console_log (error_line e) (issue x w).2)
                 ltac:(lia) Hall' Hdie').
      cbn [fulfilled rejected omap list_omap fmap list_fmap
           network sent console issue snd console_log replicate].
      by rewrite <-!(assoc_L (++)).
Qed.

(** * The claims *)

(** C1 (defect of the code).  [measureLatency] never produces its summary
    of min, max, mean, median, jitter mean, jitter p95, jitter p99, p95 and
    p99: the module object of [stats.js] has no [jitterP99] (and no [p99]),
    so after the loop the evaluation of the returned array throws a
    [TypeError] at its seventh element, whatever the network answered. *)
Theorem measureLatency_throws_at_jitterP99 (w : world) :
  (measureLatency w).1 = Throw "TypeError: stats.jitterP99 is not a function"
  ∧ stats.exports !! "jitterP99" = None
  ∧ stats.exports !! "p99" = None.
Proof.
  split; [|by split].
  unfold measureLatency.
  destruct (measureLatency_loop w) as [measurements w']. cbn [fst].
  unfold measureLatency_summary.
  rewrite (array_literal_throws
             [spread Math_min; spread Math_max; call_stats "average";
              call_stats "median"; call_stats "jitter"; call_stats "jitterP95"]
             [call_stats "p95"; call_stats "p99"]
             (call_stats "jitterP99")
             "TypeError: stats.jitterP99 is not a function").
  - done.
  - repeat apply Forall_cons_2;
      [apply spread_total | apply spread_total
      | eapply call_stats_total; reflexivity ..
      | apply Forall_nil_2].
  - intros ms. by apply call_stats_missing.
Qed.

(** C2 (defect of the code).  [jitter] is not unaffected by the sort of the
    other statistics: [median] and [quartile] sort the caller's array in
    place, so on the samples 1, 3, 2 the jitter is 3/2 before either call and
    1 after it; the report of [measureLatency], which asks for the median
    first, takes the jitter of the sorted samples. *)
Theorem jitter_changes_after_median :
  let xs := of_Z <$> [1; 3; 2]%Z in
  stats.jitter xs = ratio 3 2
  ∧ stats.jitter (array_after (stats.median xs)) = of_Z 1
  ∧ stats.jitter (array_after (stats.quartile xs (ratio 1 2))) = of_Z 1
  ∧ array_literal (take 5 measureLatency_summary) xs
    = Normal (VNum <$> [of_Z 1; of_Z 3; of_Z 2; of_Z 2; of_Z 1],
              of_Z <$> [1; 2; 3]%Z).
Proof.
  cbv zeta. split_and!.
  - apply number_eqb_eq. vm_compute. reflexivity.
  - apply number_eqb_eq. vm_compute. reflexivity.
  - apply number_eqb_eq. vm_compute. reflexivity.
  - apply report_eqb_eq. vm_compute. reflexivity.
Qed.

(** C3 (counterexample).  On a single sample [jitter] does not return 0: it
    averages an empty list of differences, which is 0/0. *)
Lemma jitter_of_one_sample_is_not_zero : stats.jitter [of_Z 1] ≠ of_Z 0.
Proof. apply number_eqb_neq. vm_compute. reflexivity. Qed.

(** C3 (amended).  [jitter(xs)] is the arithmetic mean of
    [|xs[i] - xs[i+1]|] over consecutive indices in collection order whenever
    there are at least two samples; with fewer than two samples it is [NaN];
    [jitter([5,5,5]) = 0] and [jitter([1,3]) = 2]. *)
Theorem jitter_mean_of_consecutive_differences (x y : Qc) (qs : list Qc)
    (v : number) :
  stats.jitter (Fin <$> x :: y :: qs)
  = Fin (arithmetic_mean (consecutive_differences (x :: y :: qs)))
  ∧ stats.jitter [] = NaN
  ∧ stats.jitter [v] = NaN
  ∧ stats.jitter (of_Z <$> [5; 5; 5]%Z) = of_Z 0
  ∧ stats.jitter (of_Z <$> [1; 3]%Z) = of_Z 2.
Proof.
  split_and!.
  - unfold stats.jitter. rewrite jitters_Fin, average_Fin. done.
  - done.
  - done.
  - apply number_eqb_eq. vm_compute. reflexivity.
  - apply number_eqb_eq. vm_compute. reflexivity.
Qed.

(** C4.  For a non-empty sequence of numbers and [q] in [[0,1]],
    [quartile(xs, q)] is the linear quantile of the sorted values: with
    [pos = (n-1)*q], [base = floor(pos)] and [frac = pos - base], it is
    [sorted[base]] when [base] is the last index and
    [sorted[base] + frac * (sorted[base+1] - sorted[base])] otherwise; so
    [quartile([10,20,30,40,50], 0.9) = 46] and
    [quartile([1,2,3,4], 0.5) = 2.5]. *)
Theorem quartile_is_linear_quantile (qs sorted : list Qc) (q : Qc) :
  qs ≠ [] → 0 ≤ q → q ≤ 1 → sorted ≡ₚ qs → Sorted Qcle sorted →
  returned (stats.quartile (Fin <$> qs) (Fin q))
  = VNum (Fin (linear_quantile sorted q))
  ∧ returned (stats.quartile (of_Z <$> [10; 20; 30; 40; 50]%Z) (ratio 9 10))
    = VNum (of_Z 46)
  ∧ returned (stats.quartile (of_Z <$> [1; 2; 3; 4]%Z) (ratio 1 2))
    = VNum (ratio 5 2).
Proof.
  intros Hne H0 H1 Hp Hs. split_and!.
  - rewrite quartile_sorted by done. by rewrite (Qc_sort_unique qs sorted).
  - apply value_eqb_eq. vm_compute. reflexivity.
  - apply value_eqb_eq. vm_compute. reflexivity.
Qed.

Lemma quartile_is_linear_quantile_witness :
  let qs := Qc_of_Z <$> [3; 1; 2]%Z in
  let sorted := Qc_of_Z <$> [1; 2; 3]%Z in
  let q := Q2Qc (1 # 2) in
  (qs ≠ [] ∧ 0 ≤ q ∧ q ≤ 1 ∧ sorted ≡ₚ qs ∧ Sorted Qcle sorted)
  ∧ returned (stats.quartile (Fin <$> qs) (Fin q))
    = VNum (Fin (linear_quantile sorted q)).
Proof.
  cbv zeta.
  assert (Qc_of_Z <$> [3; 1; 2]%Z ≠ []) as Hne by discriminate.
  assert (0 ≤ Q2Qc (1 # 2)) as H0 by (apply Qc_le_check; reflexivity).
  assert (Q2Qc (1 # 2) ≤ 1) as H1 by (apply Qc_le_check; reflexivity).
  assert (Qc_of_Z <$> [1; 2; 3]%Z ≡ₚ Qc_of_Z <$> [3; 1; 2]%Z) as Hp.
  { symmetry.
    exact (Permutation_cons_append (Qc_of_Z <$> [1; 2]%Z) (Qc_of_Z 3)). }
  assert (Sorted Qcle (Qc_of_Z <$> [1; 2; 3]%Z)) as Hs.
  { repeat constructor; apply Qc_le_check; reflexivity. }
  split; [done|].
  apply (quartile_is_linear_quantile _ _ _ Hne H0 H1 Hp Hs).
Defined.

(** C5 (counterexample).  At [q = 1] [quartile] does read outside the
    array: on 1, 2, 3 it reads index 3 before index 2. *)
Lemma quartile_at_one_reads_past_the_end :
  let top := stats.quartile (of_Z <$> [1; 2; 3]%Z) (of_Z 1) in
  ¬ Forall (λ k, in_bounds (array_after top) k = true) (indices_read top).
Proof.
  cbv zeta.
  change (of_Z <$> [1; 2; 3]%Z) with (Fin <$> (Qc_of_Z <$> [1; 2; 3]%Z)).
  rewrite quartile_reads_last by discriminate.
  rewrite quartile_array.
  intros [H _]%Forall_cons. unfold in_bounds in H.
  rewrite aget_outside in H; [done|].
  by rewrite Qc_sort_length.
Qed.

(** C5 (amended).  For a non-empty sequence of numbers other than [NaN],
    [quartile(xs, 1)] is the maximum of [xs].  [quartile(xs, 0)] is the
    minimum of [xs] when [xs] has one element or when the difference of its
    two smallest values is within the range of the numbers of the language;
    when that difference is not finite it is [NaN], as on [[101, Infinity]].
    At [q = 1] the function reads index [base + 1 = n], which is outside
    the array and yields [undefined] without any error, and then index
    [n - 1], which is inside; on that [undefined] it returns
    [values[n - 1]]. *)
Theorem quartile_extremes (xs : list number) :
  xs ≠ [] → Forall (λ x, isNaN x = false) xs →
  let n := length xs in
  let bottom := stats.quartile xs (of_Z 0) in
  let top := stats.quartile xs (of_Z 1) in
  (∃ lo hi,
      is_least lo xs ∧ is_greatest hi xs
      ∧ Math_min xs = lo ∧ Math_max xs = hi
      ∧ array_after bottom ≡ₚ xs ∧ StronglySorted nle (array_after bottom)
      ∧ returned top = VNum hi
      ∧ match array_after bottom !! 1%nat with
        | None => returned bottom = VNum lo
        | Some second =>
            (in_range (sub second lo) = true → returned bottom = VNum lo)
            ∧ (is_finite (sub second lo) = false →
               returned bottom = VNum NaN)
        end)
  ∧ indices_read top = [of_nat n; of_nat (n - 1)]
  ∧ in_bounds (array_after top) (of_nat n) = false
  ∧ in_bounds (array_after top) (of_nat (n - 1)) = true
  ∧ returned (stats.quartile [of_Z 101; PosInf] (of_Z 0)) = VNum NaN.
Proof.
  intros Hne Hxs. cbv zeta.
  pose proof (Array_sort_perm sub xs) as Hp.
  assert (Forall (λ x, isNaN x = false) (Array_sort sub xs)) as Hfree
    by (by rewrite Hp).
  pose proof (Array_sort_sorted xs Hxs) as Hs.
  assert (length (Array_sort sub xs) = length xs) as Hlen by (by rewrite Hp).
  assert (0 < length xs)%nat as Hpos by (destruct xs; [done|simpl; lia]).
  destruct (lookup_lt_is_Some_2 (Array_sort sub xs) 0) as [lo Hlo]; [lia|].
  destruct (lookup_lt_is_Some_2 (Array_sort sub xs) (length xs - 1))
    as [hi Hhi]; [lia|].
  pose proof (sorted_first_is_least _ _ _ Hp Hs Hlo) as Hleast.
  assert (is_greatest hi xs) as Hgreatest.
  { apply (sorted_last_is_greatest (Array_sort sub xs)); [done..|].
    by rewrite Hlen. }
  assert (array_after (stats.quartile xs (of_Z 0)) = Array_sort sub xs) as Harr.
  { rewrite quartile_unfold. cbv zeta. by destruct (aget _ _). }
  rewrite (quartile_at_one xs hi Hhi Hne).
  split_and!.
  - exists lo, hi. rewrite Harr. split_and!; try done.
    + apply (is_least_unique _ _ xs Hxs); [|done].
      by apply Math_min_least.
    + apply (is_greatest_unique _ _ xs Hxs); [|done].
      by apply Math_max_greatest.
    + rewrite (quartile_at_zero xs lo Hlo).
      destruct (Array_sort sub xs !! 1%nat) as [second|] eqn:Hsecond; [|done].
      rewrite (interpolate_from_zero lo second)
        by (by eapply Forall_lookup_1 in Hfree).
      split.
      * intros Hin. by rewrite (in_range_finite _ Hin).
      * intros Hinf. by rewrite Hinf.
  - done.
  - unfold array_after, in_bounds. cbn [fst snd].
    by rewrite aget_out by lia.
  - unfold array_after, in_bounds. cbn [fst snd].
    by rewrite (aget_in _ _ _ Hhi).
  - apply value_eqb_eq. vm_compute. reflexivity.
Qed.

Lemma quartile_extremes_witness :
  let xs := of_Z <$> [3; 1; 2]%Z in
  (xs ≠ [] ∧ Forall (λ x, isNaN x = false) xs)
  ∧ ∃ lo hi,
      Math_min xs = lo ∧ Math_max xs = hi
      ∧ returned (stats.quartile xs (of_Z 1)) = VNum hi
      ∧ match array_after (stats.quartile xs (of_Z 0)) !! 1%nat with
        | None => returned (stats.quartile xs (of_Z 0)) = VNum lo
        | Some second =>
            (in_range (sub second lo) = true →
             returned (stats.quartile xs (of_Z 0)) = VNum lo)
            ∧ (is_finite (sub second lo) = false →
               returned (stats.quartile xs (of_Z 0)) = VNum NaN)
        end.
Proof.
  cbv zeta.
  assert (of_Z <$> [3; 1; 2]%Z ≠ []) as Hne by discriminate.
  assert (Forall (λ x, isNaN x = false) (of_Z <$> [3; 1; 2]%Z)) as Hxs
    by (repeat constructor).
  split; [done|].
  destruct (quartile_extremes _ Hne Hxs)
    as ((lo & hi & _ & _ & Hmin & Hmax & _ & _ & Htop & Hbottom) & _).
  exists lo, hi. split; [exact Hmin|]. split; [exact Hmax|].
  split; [exact Htop|exact Hbottom].
Defined.

(** C6.  For a non-empty sequence of numbers [median(xs)] is the middle
    element of the sorted values when the length is odd and the mean of the
    two middle sorted elements when it is even; so [median([a]) = a],
    [median([a,b]) = (a+b)/2], and every permutation of the same samples has
    the same median. *)
Theorem median_is_middle_of_sorted (qs qs' sorted : list Qc) (a b : Qc) :
  qs ≠ [] → sorted ≡ₚ qs → Sorted Qcle sorted → qs' ≡ₚ qs →
  returned (stats.median (Fin <$> qs)) = VNum (Fin (middle_value sorted))
  ∧ returned (stats.median [Fin a]) = VNum (Fin a)
  ∧ returned (stats.median [Fin a; Fin b]) = VNum (Fin ((a + b) / Qc_of_Z 2))
  ∧ returned (stats.median (Fin <$> qs')) = returned (stats.median (Fin <$> qs)).
Proof.
  intros Hne Hp Hs Hp'. split_and!.
  - rewrite median_sorted by done. by rewrite (Qc_sort_unique qs sorted).
  - change [Fin a] with (Fin <$> [a]).
    by rewrite median_sorted.
  - change [Fin a; Fin b] with (Fin <$> [a; b]).
    rewrite median_sorted by done.
    unfold Qc_sort. cbn [foldr Qc_insert].
    destruct (Qc_ltb b a); cbn; [|done].
    by rewrite (Qcplus_comm b a).
  - assert (qs' ≠ []) as Hne'.
    { intros ->. by apply Permutation_nil_l in Hp'. }
    rewrite !median_sorted by done.
    rewrite (Qc_sort_unique qs' (Qc_sort qs)); [done| |].
    + rewrite Qc_sort_perm. by symmetry.
    + apply StronglySorted_Sorted, Qc_sort_sorted.
Qed.

Lemma median_is_middle_of_sorted_witness :
  let qs := Qc_of_Z <$> [3; 1; 2]%Z in
  let qs' := Qc_of_Z <$> [2; 3; 1]%Z in
  let sorted := Qc_of_Z <$> [1; 2; 3]%Z in
  (qs ≠ [] ∧ sorted ≡ₚ qs ∧ Sorted Qcle sorted ∧ qs' ≡ₚ qs)
  ∧ returned (stats.median (Fin <$> qs)) = VNum (Fin (middle_value sorted))
  ∧ returned (stats.median (Fin <$> qs')) = returned (stats.median (Fin <$> qs)).
Proof.
  cbv zeta.
  assert (Qc_of_Z <$> [3; 1; 2]%Z ≠ []) as Hne by discriminate.
  assert (Qc_of_Z <$> [1; 2; 3]%Z ≡ₚ Qc_of_Z <$> [3; 1; 2]%Z) as Hp.
  { symmetry.
    exact (Permutation_cons_append (Qc_of_Z <$> [1; 2]%Z) (Qc_of_Z 3)). }
  assert (Sorted Qcle (Qc_of_Z <$> [1; 2; 3]%Z)) as Hs.
  { repeat constructor; apply Qc_le_check; reflexivity. }
  assert (Qc_of_Z <$> [2; 3; 1]%Z ≡ₚ Qc_of_Z <$> [3; 1; 2]%Z) as Hp'.
  { exact (Permutation_cons_append (Qc_of_Z <$> [3; 1]%Z) (Qc_of_Z 2)). }
  destruct (median_is_middle_of_sorted _ _ _ 0 0 Hne Hp Hs Hp')
    as (Hmid & _ & _ & Hperm).
  split; [done|]. split; [exact Hmid|exact Hperm].
Defined.

(** C7.  For every successful request the latency driver's sample is
    [firstByte - start - serverProcessingMs], whatever the network answers:
    the series of the loop is that difference over the successful requests,
    in order.  So when each of the 100 requests succeeds with 52 ms to the
    first byte and 2 ms of server processing time, every sample is 50, and
    the median and the jitter mean that the report evaluates from them are
    50 and 0. *)
Theorem latency_is_ttfb_minus_server_time (w : world) :
  (measureLatency_loop w).1
  = (λ r, sub (sub (ToNumber (ttfb r)) (started r)) (serverTiming r))
      <$> fulfilled (outcomes w 100)
  ∧ ((∀ k, (k < 100)%nat →
           ∃ r, network w (length (sent w) + k) = Fulfilled r
                ∧ sub (ToNumber (ttfb r)) (started r) = of_Z 52
                ∧ serverTiming r = of_Z 2) →
     (measureLatency_loop w).1 = replicate 100 (of_Z 50)
     ∧ array_literal (take 5 measureLatency_summary) (measureLatency_loop w).1
       = Normal (VNum <$> [of_Z 50; of_Z 50; of_Z 50; of_Z 50; of_Z 0],
                 replicate 100 (of_Z 50))).
Proof.
  assert ((measureLatency_loop w).1
          = latency_sample <$> fulfilled (outcomes w 100)) as Hloop.
  { rewrite measureLatency_loop_eq, loop_skips_failures. done. }
  split; [exact Hloop|].
  intros Hnet.
  assert ((measureLatency_loop w).1 = replicate 100 (of_Z 50)) as Hall.
  { rewrite Hloop. unfold outcomes. apply constant_samples.
    intros k Hk. destruct (Hnet k) as (r & Hr & Hfirst & Hserver); [lia|].
    exists r. split; [done|].
    unfold latency_sample. rewrite Hfirst, Hserver. apply sub_of_Z. }
  split; [exact Hall|].
  rewrite Hall. apply report_eqb_eq. vm_compute. reflexivity.
Qed.

Lemma latency_is_ttfb_minus_server_time_witness :
  (∀ k, (k < 100)%nat →
        ∃ r, network steady_world (length (sent steady_world) + k) = Fulfilled r
             ∧ sub (ToNumber (ttfb r)) (started r) = of_Z 52
             ∧ serverTiming r = of_Z 2)
  ∧ (measureLatency_loop steady_world).1 = replicate 100 (of_Z 50).
Proof.
  assert (∀ k, (k < 100)%nat →
        ∃ r, network steady_world (length (sent steady_world) + k) = Fulfilled r
             ∧ sub (ToNumber (ttfb r)) (started r) = of_Z 52
             ∧ serverTiming r = of_Z 2) as Hnet.
  { intros k _. exists steady_response. split; [reflexivity|].
    split; [exact (sub_of_Z 1052 1000)|reflexivity]. }
  split; [exact Hnet|].
  exact (proj1 (proj2 (latency_is_ttfb_minus_server_time steady_world) Hnet)).
Defined.

(** C8.  For every successful upload request the upload driver's sample is
    [measureSpeed(byteSize, serverProcessingMs)], that is
    [byteSize * 8 / (serverProcessingMs / 1000) / 1e6]: the duration is the
    processing time the server reports, and the timestamps of the exchange do
    not enter it. *)
Theorem upload_sample_uses_server_time (bytes : number) (iterations : nat)
    (w : world) (b ms : Qc) :
  ms ≠ 0 →
  (measureUpload bytes iterations w).1
  = (λ r, measureSpeed bytes (serverTiming r))
      <$> fulfilled (outcomes w iterations)
  ∧ measureSpeed (Fin b) (Fin ms)
    = Fin (b * Qc_of_Z 8 / (ms / Qc_of_Z 1000) / Qc_of_Z 1000000).
Proof.
  intros Hms. split.
  - rewrite measureUpload_eq, loop_skips_failures. done.
  - assert (Qc_eqb (ms / Qc_of_Z 1000) 0 = false) as Hdur; last first.
    { unfold measureSpeed, of_Z. cbn [mul div].
      rewrite (Qc_of_Z_nonzero 1000) by done. cbn [div]. rewrite Hdur.
      cbn [div]. by rewrite (Qc_of_Z_nonzero 1000000). }
    apply not_true_iff_false. rewrite Qc_eqb_eq. intros H.
    apply Hms. apply (f_equal (λ x, x * Qc_of_Z 1000)) in H.
    rewrite Qcmult_0_l in H. rewrite <-H. field.
    rewrite <-Z2Qc_inj_0. by intros ?%Z2Qc_inj.
Qed.

Lemma upload_sample_uses_server_time_witness :
  Qc_of_Z 40 ≠ 0
  ∧ (measureUpload (of_Z 11000) 2 steady_world).1
    = (λ r, measureSpeed (of_Z 11000) (serverTiming r))
        <$> fulfilled (outcomes steady_world 2)
  ∧ measureSpeed (of_Z 11000) (of_Z 40)
    = Fin (Qc_of_Z 11000 * Qc_of_Z 8 / (Qc_of_Z 40 / Qc_of_Z 1000)
           / Qc_of_Z 1000000).
Proof.
  assert (Qc_of_Z 40 ≠ 0) as Hms by discriminate.
  split; [exact Hms|].
  exact (upload_sample_uses_server_time
           (of_Z 11000) 2 steady_world (Qc_of_Z 11000) (Qc_of_Z 40) Hms).
Defined.

(** C9 (defect of the code).  The drivers log and skip a request only when
    its promise rejects.  A response without a [server-timing] header is a
    failed request as well, and [request] does not reject on it: its
    ['end'] listener throws on the missing header before it resolves, the
    promise never settles, and no handler of the driver runs.  So when the
    first [k] requests of a driver settle and the next response lacks the
    header, the run ends at that request with a [TypeError]: [k + 1]
    requests have been issued, whatever [iterationCount] is, lines have
    been printed for the rejected ones among the first [k] only, nothing is
    printed for the failed request, and no series is returned.  An
    ['error'] event of the request is what rejects. *)
Theorem response_without_server_timing_ends_the_run
    (parseFloat : string → number) (wire : nat → delivery)
    (x : exchange) (sample : response → number) (iterations k : nat)
    (measurements : list number) (w : world)
    (start : number) (dns tcp ssl firstByte : value) (finish : number)
    (headers : gmap string string) :
  (k < iterations)%nat →
  (∀ j, (j < k)%nat →
        request parseFloat (wire (length (sent w) + j)%nat)
        = Settles (network w (length (sent w) + j))) →
  wire (length (sent w) + k)%nat
  = ResponseEnded start dns tcp ssl firstByte finish headers →
  headers !! "server-timing" = None →
  request parseFloat (wire (length (sent w) + k)%nat)
  = Uncaught "TypeError: Cannot read properties of undefined (reading 'slice')"
  ∧ (∀ s, request parseFloat (wire (length (sent w) + k)%nat) ≠ Settles s)
  ∧ drive parseFloat wire x sample iterations measurements
      (sent w) (console w)
    = Died "TypeError: Cannot read properties of undefined (reading 'slice')"
        (sent w ++ replicate (S k) x)
        (console w ++ (error_line <$> rejected (outcomes w k)))
  ∧ (∀ error, request parseFloat (ErrorEvent error) = Settles (Rejected error)).
Proof.
  intros Hk Hall Hwire Hnone.
  pose proof (request_without_server_timing parseFloat
                start dns tcp ssl firstByte finish headers Hnone) as Hthrow.
  rewrite <-Hwire in Hthrow.
  split_and!.
  - exact Hthrow.
  - intros s. by rewrite Hthrow.
  - by apply drive_dies.
  - done.
Qed.

Lemma response_without_server_timing_ends_the_run_witness :
  drive (λ _, NaN) bare_wire (Download (of_Z 101000))
    (download_sample (of_Z 101000)) 10 [] [] []
  = Died "TypeError: Cannot read properties of undefined (reading 'slice')"
      (replicate 3 (Download (of_Z 101000)))
      ["Error: ENOTFOUND"; "Error: ENOTFOUND"].
Proof.
  assert (2 < 10)%nat as Hk by lia.
  assert (∀ j, (j < 2)%nat →
            request (λ _, NaN) (bare_wire (length (sent dead_world) + j)%nat)
            = Settles (network dead_world (length (sent dead_world) + j)))
    as Hall.
  { intros [|[|j]] Hj; [reflexivity|reflexivity|lia]. }
  assert (bare_wire (length (sent dead_world) + 2)%nat
          = ResponseEnded (of_Z 0) VUndef VUndef VUndef (VNum (of_Z 52))
              (of_Z 60) ∅) as Hwire by reflexivity.
  assert ((∅ : gmap string string) !! "server-timing" = None) as Hnone
    by reflexivity.
  exact (proj1 (proj2 (proj2
    (response_without_server_timing_ends_the_run (λ _, NaN) bare_wire
       (Download (of_Z 101000)) (download_sample (of_Z 101000)) 10 2 []
       dead_world (of_Z 0) VUndef VUndef VUndef (VNum (of_Z 52)) (of_Z 60) ∅
       Hk Hall Hwire Hnone)))).
Defined.

(** C10.  [median(xs)] and [quartile(xs, q)] sort their argument in place:
    after either call the caller's array holds the same samples in ascending
    order. *)
Theorem median_and_quartile_sort_in_place (qs : list Qc) (percentile : number) :
  (∃ sorted,
      sorted ≡ₚ qs ∧ Sorted Qcle sorted
      ∧ array_after (stats.median (Fin <$> qs)) = Fin <$> sorted
      ∧ array_after (stats.quartile (Fin <$> qs) percentile) = Fin <$> sorted)
  ∧ array_after (stats.median (of_Z <$> [3; 1; 2]%Z)) = of_Z <$> [1; 2; 3]%Z
  ∧ array_after (stats.quartile (of_Z <$> [3; 1; 2]%Z) (ratio 1 2))
    = of_Z <$> [1; 2; 3]%Z.
Proof.
  split_and!.
  - exists (Qc_sort qs). split_and!.
    + apply Qc_sort_perm.
    + apply StronglySorted_Sorted, Qc_sort_sorted.
    + apply median_array.
    + apply quartile_array.
  - apply numbers_eqb_eq. vm_compute. reflexivity.
  - apply numbers_eqb_eq. vm_compute. reflexivity.
Qed.

(** * Further properties of the code *)

(** ** Jitter *)

Lemma Qc_of_nat_S (n : nat) :
  Qc_of_Z (Z.of_nat (S n)) = Qc_of_Z (Z.of_nat n) + 1.
Proof. by rewrite Nat2Z.inj_succ, <-Z.add_1_r, Z2Qc_inj_add, Z2Qc_inj_1. Qed.

Lemma Qc_of_nat_pos (n : nat) : (0 < n)%nat → 0 < Qc_of_Z (Z.of_nat n).
Proof.
  intros Hn. rewrite <-Z2Qc_inj_0.
  apply (proj1 (Z2Qc_inj_lt 0 (Z.of_nat n))). lia.
Qed.

Lemma Qc_sum_lower (lo : Qc) (qs : list Qc) :
  Forall (Qcle lo) qs → Qc_of_Z (Z.of_nat (length qs)) * lo ≤ Qc_sum qs.
Proof.
  induction 1 as [|x qs Hx _ IH].
  - unfold Qc_sum. cbn [length foldr]. change (Z.of_nat 0) with 0%Z.
    rewrite Z2Qc_inj_0, Qcmult_0_l. apply Qcle_refl.
  - cbn [length]. rewrite Qc_of_nat_S. unfold Qc_sum in *. cbn [foldr].
    rewrite Qcmult_plus_distr_l, Qcmult_1_l, Qcplus_comm.
    by apply Qcplus_le_compat.
Qed.

Lemma mean_times_count (qs : list Qc) :
  qs ≠ [] → arithmetic_mean qs * Qc_of_Z (Z.of_nat (length qs)) = Qc_sum qs.
Proof.
  intros Hne. unfold arithmetic_mean.
  rewrite Qcmult_comm. apply Qcmult_div_r.
  apply not_eq_sym, Qclt_not_eq, Qc_of_nat_pos.
  destruct qs; [done|simpl; lia].
Qed.

Lemma mean_lower (qs : list Qc) (lo : Qc) :
  qs ≠ [] → Forall (Qcle lo) qs → lo ≤ arithmetic_mean qs.
Proof.
  intros Hne Hlo.
  assert (0 < Qc_of_Z (Z.of_nat (length qs))) as Hn.
  { apply Qc_of_nat_pos. destruct qs; [done|simpl; lia]. }
  apply (Qcmult_le_mono_pos_r _ _ _ Hn).
  rewrite mean_times_count by done.
  rewrite Qcmult_comm. by apply Qc_sum_lower.
Qed.

Lemma Qc_abs_nonneg (d : Qc) : 0 ≤ Qc_abs d.
Proof.
  unfold Qc_abs. destruct (Qc_ltb d 0) eqn:E.
  - apply Qc_ltb_lt, Qclt_le_weak, Qcopp_le_compat in E. exact E.
  - by apply Qc_ltb_ge in E.
Qed.

Lemma differences_nonneg (qs : list Qc) :
  Forall (Qcle 0) (consecutive_differences qs).
Proof.
  induction qs as [|x qs IH]; [constructor|].
  destruct qs as [|y qs]; [constructor|].
  change (consecutive_differences (x :: y :: qs))
    with (Qc_abs (x - y) :: consecutive_differences (y :: qs)).
  constructor; [apply Qc_abs_nonneg|exact IH].
Qed.

Lemma differences_of_constant (x : Qc) (n : nat) :
  consecutive_differences (replicate (S n) x) = replicate n 0.
Proof.
  induction n as [|n IH]; [done|].
  change (consecutive_differences (replicate (S (S n)) x))
    with (Qc_abs (x - x) :: consecutive_differences (replicate (S n) x)).
  rewrite IH. cbn [replicate]. f_equal.
  replace (x - x) with 0 by ring. done.
Qed.

Lemma sum_of_zeros (n : nat) : Qc_sum (replicate n 0) = 0.
Proof.
  induction n as [|n IH]; [done|].
  unfold Qc_sum in *. cbn [replicate foldr]. rewrite IH. ring.
Qed.

(** X4.  The jitter of at least two finite samples is never negative and
    never [NaN], and the jitter of a constant series is zero. *)
Theorem jitter_is_not_negative (x y : Qc) (qs : list Qc) (n : nat) :
  lt (stats.jitter (Fin <$> x :: y :: qs)) (of_Z 0) = false
  ∧ isNaN (stats.jitter (Fin <$> x :: y :: qs)) = false
  ∧ stats.jitter (Fin <$> replicate (S (S n)) x) = of_Z 0.
Proof.
  assert (consecutive_differences (x :: y :: qs) ≠ []) as Hne by done.
  pose proof (differences_nonneg (x :: y :: qs)) as Hpos.
  pose proof (mean_lower _ 0 Hne Hpos) as Hmean.
  unfold stats.jitter. rewrite !jitters_Fin, !average_Fin.
  destruct (consecutive_differences (x :: y :: qs)) as [|d ds] eqn:E; [done|].
  split_and!.
  - unfold of_Z. cbn [lt]. rewrite Z2Qc_inj_0. by apply Qc_ltb_ge.
  - done.
  - rewrite differences_of_constant. cbn [replicate].
    unfold arithmetic_mean.
    change (0 :: replicate n 0) with (replicate (S n) (Q2Qc 0)).
    rewrite sum_of_zeros. unfold of_Z. f_equal.
    rewrite Z2Qc_inj_0. unfold Qcdiv. apply Qcmult_0_l.
Qed.

(** X5.  With fewer than two samples [jitterP90] and [jitterP95] return
    [undefined], where [jitter] returns [NaN]: there is no difference to
    take a quantile of, whatever the one sample is. *)
Theorem jitter_percentiles_of_too_few_samples (v : number) :
  stats.jitterP90 [] = VUndef ∧ stats.jitterP95 [] = VUndef
  ∧ stats.jitterP90 [v] = VUndef ∧ stats.jitterP95 [v] = VUndef
  ∧ stats.jitter [v] = NaN.
Proof. done. Qed.

(** ** Calls on the same array, and inputs outside the intended range *)

Lemma Qc_sort_idempotent (qs : list Qc) : Qc_sort (Qc_sort qs) = Qc_sort qs.
Proof.
  apply Qc_sort_unique; [done|].
  apply StronglySorted_Sorted, Qc_sort_sorted.
Qed.

Lemma median_of_sorted (qs : list Qc) :
  stats.median (Fin <$> Qc_sort qs) = stats.median (Fin <$> qs).
Proof.
  rewrite !median_unfold. cbv zeta.
  unfold length_of.
  by rewrite !Array_sort_Fin, Qc_sort_idempotent, !length_fmap, Qc_sort_length.
Qed.

Lemma quartile_of_sorted (qs : list Qc) (percentile : number) :
  stats.quartile (Fin <$> Qc_sort qs) percentile
  = stats.quartile (Fin <$> qs) percentile.
Proof.
  rewrite !quartile_unfold. cbv zeta.
  by rewrite !Array_sort_Fin, Qc_sort_idempotent.
Qed.

(** X6.  Once [median] or [quartile] has sorted an array of finite numbers,
    further calls on that array return what they return on the original
    samples and leave the array as it is: the first call's sort is the only
    change ever made. *)
Theorem calls_after_the_first_sort_agree (qs : list Qc) (p p' : number) :
  let by_median := array_after (stats.median (Fin <$> qs)) in
  let by_quartile := array_after (stats.quartile (Fin <$> qs) p') in
  by_median = by_quartile
  ∧ stats.median by_median = stats.median (Fin <$> qs)
  ∧ stats.quartile by_median p = stats.quartile (Fin <$> qs) p
  ∧ array_after (stats.median by_median) = by_median
  ∧ array_after (stats.quartile by_median p) = by_median.
Proof.
  cbv zeta. rewrite median_array, quartile_array.
  rewrite median_of_sorted, quartile_of_sorted, median_array, quartile_array.
  done.
Qed.

Lemma aget_nil (k : number) : aget [] k = VUndef.
Proof.
  destruct k as [q| | |]; [|done..]. unfold aget.
  by destruct (_ && _).
Qed.

(** X7.  On the empty array nothing throws: [average], [median] and [jitter]
    return [NaN], [quartile] returns [undefined] for every percentile, and
    [Math.min] and [Math.max] return the two infinities. *)
Theorem statistics_of_no_samples (p : number) :
  stats.average [] = NaN
  ∧ stats.median [] = ((VNum NaN, []), [of_Z (-1); of_Z 0])
  ∧ returned (stats.quartile [] p) = VUndef
  ∧ array_after (stats.quartile [] p) = []
  ∧ stats.jitter [] = NaN
  ∧ Math_min [] = PosInf ∧ Math_max [] = NegInf.
Proof.
  split_and!; try done.
  - rewrite median_unfold. cbv zeta.
    assert (Math_floor (div (length_of []) (of_Z 2)) = of_Z 0) as ->.
    { apply number_eqb_eq. vm_compute. reflexivity. }
    rewrite sub_of_Z. done.
  - rewrite quartile_unfold. cbv zeta. cbn [Array_sort foldr].
    by rewrite !aget_nil.
  - rewrite quartile_unfold. cbv zeta. cbn [Array_sort foldr].
    by rewrite !aget_nil.
Qed.

(** X8.  A percentile that puts the position at or beyond the length of the
    array, such as 90 where 0.9 is meant, makes [quartile] return
    [undefined] instead of a number; so does a percentile of [NaN]. *)
Theorem quartile_beyond_the_samples (qs : list Qc) (q : Qc)
    (values : list number) :
  Qc_of_Z (Z.of_nat (length qs))
    ≤ Qc_of_Z (Z.of_nat (length qs) - 1) * q →
  returned (stats.quartile (Fin <$> qs) (Fin q)) = VUndef
  ∧ returned (stats.quartile values NaN) = VUndef.
Proof.
  intros Hq. split.
  - rewrite quartile_unfold. cbv zeta.
    rewrite Array_sort_Fin. unfold length_of. rewrite length_fmap.
    rewrite Qc_sort_length. unfold of_nat. rewrite sub_of_Z.
    set (pos := Qc_of_Z (Z.of_nat (length qs) - 1) * q) in *.
    change (mul (of_Z (Z.of_nat (length qs) - 1)) (Fin q)) with (Fin pos).
    change (Math_floor (Fin pos)) with (of_Z (Qfloor pos)).
    pose proof (Qfloor_resp_le _ _ Hq) as Hb.
    rewrite Qfloor_of_Z in Hb.
    rewrite add_of_Z.
    rewrite (of_Z_nat (Qfloor pos)), (of_Z_nat (Qfloor pos + 1)) by lia.
    by rewrite !aget_outside by (rewrite Qc_sort_length; lia).
  - rewrite quartile_unfold. cbv zeta.
    assert (mul (sub (length_of (Array_sort sub values)) (of_Z 1)) NaN = NaN)
      as -> by done.
    done.
Qed.

Lemma quartile_beyond_the_samples_witness :
  let qs := Qc_of_Z <$> [1; 2; 3]%Z in
  Qc_of_Z (Z.of_nat (length qs))
    ≤ Qc_of_Z (Z.of_nat (length qs) - 1) * Qc_of_Z 90
  ∧ returned (stats.quartile (Fin <$> qs) (of_Z 90)) = VUndef.
Proof.
  cbv zeta.
  assert (Qc_of_Z (Z.of_nat (length (Qc_of_Z <$> [1; 2; 3]%Z)))
          ≤ Qc_of_Z (Z.of_nat (length (Qc_of_Z <$> [1; 2; 3]%Z)) - 1)
            * Qc_of_Z 90) as Hq by (apply Qc_le_check; reflexivity).
  split; [exact Hq|].
  exact (proj1 (quartile_beyond_the_samples _ _ [] Hq)).
Defined.

(** ** Throughput samples and the drivers *)

Lemma Qc_pos_nonzero (x : Qc) : 0 < x → Qc_eqb x 0 = false.
Proof.
  intros Hx. apply not_true_iff_false. rewrite Qc_eqb_eq.
  by apply not_eq_sym, Qclt_not_eq.
Qed.

Lemma sign_of_positive (x : Qc) : 0 < x → sign (Fin x) = Some true.
Proof. intros Hx. unfold sign. by apply Qc_ltb_lt in Hx as ->. Qed.

(** X9.  [measureSpeed] never throws.  For a positive size and a positive
    duration it is neither negative nor [NaN]; for a positive size and a
    duration of zero it is [Infinity]; zero bytes in zero time are [NaN],
    and so is any size over a duration of [NaN]. *)
Theorem measureSpeed_of_durations (b ms : Qc) (bytes : number) :
  (0 < b → 0 < ms →
   lt (measureSpeed (Fin b) (Fin ms)) (of_Z 0) = false
   ∧ isNaN (measureSpeed (Fin b) (Fin ms)) = false)
  ∧ (0 < b → measureSpeed (Fin b) (of_Z 0) = PosInf)
  ∧ measureSpeed (of_Z 0) (of_Z 0) = NaN
  ∧ measureSpeed bytes NaN = NaN.
Proof.
  assert (0 < Qc_of_Z 1000) as H1000 by (by apply Qc_ltb_lt).
  assert (0 < Qc_of_Z 1000000) as H1e6 by (by apply Qc_ltb_lt).
  assert (0 < Qc_of_Z 8) as H8 by (by apply Qc_ltb_lt).
  split_and!.
  - intros Hb Hms.
    assert (0 < ms / Qc_of_Z 1000) as Hdur.
    { apply Qcmult_pos_pos; [done|by apply Qcinv_pos]. }
    assert (measureSpeed (Fin b) (Fin ms)
            = Fin (b * Qc_of_Z 8 / (ms / Qc_of_Z 1000) / Qc_of_Z 1000000))
      as ->.
    { unfold measureSpeed, of_Z. cbn [mul div].
      rewrite (Qc_of_Z_nonzero 1000) by done. cbn [div].
      rewrite (Qc_pos_nonzero _ Hdur). cbn [div].
      by rewrite (Qc_of_Z_nonzero 1000000). }
    split; [|done]. unfold of_Z. cbn [lt]. rewrite Z2Qc_inj_0.
    apply Qc_ltb_ge, Qclt_le_weak.
    apply Qcmult_pos_pos; [|by apply Qcinv_pos].
    apply Qcmult_pos_pos; [by apply Qcmult_pos_pos|by apply Qcinv_pos].
  - intros Hb. unfold measureSpeed, of_Z. cbn [mul div].
    rewrite (Qc_of_Z_nonzero 1000) by done. cbn [div].
    assert (Qc_eqb (Qc_of_Z 0 / Qc_of_Z 1000) 0 = true) as ->
      by (by apply Qc_eqb_eq, Qc_is_canon).
    rewrite sign_of_positive by (by apply Qcmult_pos_pos).
    done.
  - apply number_eqb_eq. vm_compute. reflexivity.
  - unfold measureSpeed. by destruct bytes.
Qed.

Lemma measureSpeed_of_durations_witness :
  (0 < Qc_of_Z 101000 ∧ 0 < Qc_of_Z 40)
  ∧ lt (measureSpeed (of_Z 101000) (of_Z 40)) (of_Z 0) = false
  ∧ isNaN (measureSpeed (of_Z 101000) (of_Z 40)) = false
  ∧ measureSpeed (of_Z 101000) (of_Z 0) = PosInf.
Proof.
  assert (0 < Qc_of_Z 101000) as Hb by (by apply Qc_ltb_lt).
  assert (0 < Qc_of_Z 40) as Hms by (by apply Qc_ltb_lt).
  destruct (measureSpeed_of_durations (Qc_of_Z 101000) (Qc_of_Z 40) NaN)
    as (Hpos & Hzero & _).
  split; [done|].
  destruct (Hpos Hb Hms) as [Hlt Hnan].
  split; [exact Hlt|]. split; [exact Hnan|exact (Hzero Hb)].
Defined.

Lemma outcomes_after (w w' : world) (n m : nat) :
  network w' = network w → length (sent w') = (length (sent w) + n)%nat →
  outcomes w' m = drop n (outcomes w (n + m)).
Proof.
  intros Hnet Hsent. unfold outcomes. rewrite Hnet, Hsent.
  rewrite seq_app, fmap_app, drop_app_length'
    by (by rewrite length_fmap, length_seq).
  replace (0 + n)%nat with (n + 0)%nat by lia.
  rewrite <-(fmap_add_seq n 0 m), <-list_fmap_compose.
  apply list_fmap_ext. intros _ k _. cbn. f_equal. lia.
Qed.

Lemma outcomes_before (w : world) (n m : nat) :
  outcomes w n = take n (outcomes w (n + m)).
Proof.
  unfold outcomes.
  by rewrite seq_app, fmap_app, take_app_length'
    by (by rewrite length_fmap, length_seq).
Qed.

(** X10.  Drivers run one after the other never share an answer.  While
    every request settles, when [measureUpload] runs in the world
    [measureDownload] leaves, the requests go out as all the downloads
    followed by all the uploads, the download series comes from the
    network's first answers and the upload series from the answers that
    follow them, and one line is printed for each rejected request, in
    order. *)
Theorem download_then_upload_split_the_answers (bytes bytes' : number)
    (n m : nat) (w : world) :
  let down := measureDownload bytes n w in
  let up := measureUpload bytes' m down.2 in
  let answers := outcomes w (n + m) in
  down.1 = download_sample bytes <$> fulfilled (take n answers)
  ∧ up.1 = upload_sample bytes' <$> fulfilled (drop n answers)
  ∧ sent up.2
    = sent w ++ replicate n (Download bytes) ++ replicate m (Upload bytes')
  ∧ console up.2 = console w ++ (error_line <$> rejected answers).
Proof.
  cbv zeta.
  rewrite measureDownload_eq, loop_skips_failures.
  rewrite measureUpload_eq, loop_skips_failures.
  cbn [fst snd sent console network].
  set (w1 := {| network := network w;
                sent := sent w ++ replicate n (Download bytes);
                console := console w
                           ++ (error_line <$> rejected (outcomes w n)) |}).
  assert (outcomes w1 m = drop n (outcomes w (n + m))) as Hafter.
  { apply outcomes_after; [done|].
    cbn. by rewrite length_app, length_replicate. }
  rewrite Hafter, <-(outcomes_before w n m).
  rewrite <-!(assoc_L (++)). split_and!; try done.
  f_equal. rewrite <-fmap_app. f_equal.
  rewrite (outcomes_before w n m) at 1.
  unfold rejected. by rewrite <-omap_app, take_drop.
Qed.

Lemma fulfilled_of_rejected (errors : list string) :
  fulfilled (Rejected <$> errors) = [].
Proof. induction errors as [|e errors IH]; [done|]. exact IH. Qed.

Lemma rejected_of_rejected (errors : list string) :
  rejected (Rejected <$> errors) = errors.
Proof.
  induction errors as [|e errors IH]; [done|].
  cbn [fmap list_fmap]. unfold rejected in *. cbn [omap list_omap].
  by rewrite IH.
Qed.

(** X11.  When every request of a driver is rejected, the driver issues all
    its requests all the same, prints one line for each of the errors in
    order, and returns an empty series; [logDownloadSpeed] and
    [logUploadSpeed] then throw a [TypeError] on that series instead of
    printing a speed. *)
Theorem all_requests_rejected_ends_in_TypeError (t : terminal)
    (bytes : number) (errors : list string) (w : world) :
  outcomes w (length errors) = Rejected <$> errors →
  let down := measureDownload bytes (length errors) w in
  let up := measureUpload bytes (length errors) w in
  down = ([], {| network := network w;
                 sent := sent w ++ replicate (length errors) (Download bytes);
                 console := console w ++ (error_line <$> errors) |})
  ∧ up = ([], {| network := network w;
                 sent := sent w ++ replicate (length errors) (Upload bytes);
                 console := console w ++ (error_line <$> errors) |})
  ∧ logDownloadSpeed t down.1 down.2
    = Throw "TypeError: Cannot read properties of undefined (reading 'toFixed')"
  ∧ logUploadSpeed t up.1 up.2
    = Throw "TypeError: Cannot read properties of undefined (reading 'toFixed')".
Proof.
  intros Hall. cbv zeta.
  rewrite measureDownload_eq, measureUpload_eq, !loop_skips_failures.
  rewrite Hall, fulfilled_of_rejected, rejected_of_rejected.
  done.
Qed.

Lemma all_requests_rejected_ends_in_TypeError_witness :
  outcomes dead_world (length ["ENOTFOUND"; "ENOTFOUND"])
  = Rejected <$> ["ENOTFOUND"; "ENOTFOUND"]
  ∧ measureDownload (of_Z 101000) 2 dead_world
    = ([], {| network := network dead_world;
              sent := [Download (of_Z 101000); Download (of_Z 101000)];
              console := ["Error: ENOTFOUND"; "Error: ENOTFOUND"] |})
  ∧ logDownloadSpeed tagging_terminal
      (measureDownload (of_Z 101000) 2 dead_world).1
      (measureDownload (of_Z 101000) 2 dead_world).2
    = Throw "TypeError: Cannot read properties of undefined (reading 'toFixed')".
Proof.
  assert (outcomes dead_world (length ["ENOTFOUND"; "ENOTFOUND"])
          = Rejected <$> ["ENOTFOUND"; "ENOTFOUND"]) as Hall by reflexivity.
  destruct (all_requests_rejected_ends_in_TypeError
              tagging_terminal (of_Z 101000) _ dead_world Hall)
    as (Hdown & _ & Hlog & _).
  split; [exact Hall|]. split; [exact Hdown|exact Hlog].
Defined.

(** X17.  While every request settles, a driver is a sequential loop of
    [iterationCount] requests: it issues exactly that many, one after the
    other; a rejected request prints one line and adds nothing; a fulfilled
    one appends exactly one sample.  So the series holds the samples of the
    fulfilled requests in order, and a driver with 10 iterations of which 3
    are rejected returns 7 samples. *)
Theorem drivers_skip_rejected_requests (bytes : number)
    (iterations failures : nat) (w : world) :
  length (rejected (outcomes w iterations)) = failures →
  let answers := outcomes w iterations in
  let down := measureDownload bytes iterations w in
  let up := measureUpload bytes iterations w in
  let latency := measureLatency_loop w in
  (down.1 = download_sample bytes <$> fulfilled answers
   ∧ sent down.2 = sent w ++ replicate iterations (Download bytes)
   ∧ console down.2 = console w ++ (error_line <$> rejected answers)
   ∧ length down.1 = (iterations - failures)%nat)
  ∧ (up.1 = upload_sample bytes <$> fulfilled answers
     ∧ sent up.2 = sent w ++ replicate iterations (Upload bytes)
     ∧ console up.2 = console w ++ (error_line <$> rejected answers)
     ∧ length up.1 = (iterations - failures)%nat)
  ∧ (latency.1 = latency_sample <$> fulfilled (outcomes w 100)
     ∧ sent latency.2 = sent w ++ replicate 100 (Download (of_Z 200))
     ∧ console latency.2
       = console w ++ (error_line <$> rejected (outcomes w 100))).
Proof.
  intros Hfail. cbv zeta.
  pose proof (fulfilled_rejected_length (outcomes w iterations)) as Hlen.
  rewrite outcomes_length, Hfail in Hlen.
  rewrite measureDownload_eq, measureUpload_eq, measureLatency_loop_eq.
  rewrite !loop_skips_failures. cbn [fst snd sent console app].
  rewrite !length_fmap.
  split_and!; try done; lia.
Qed.

Lemma drivers_skip_rejected_requests_witness :
  length (rejected (outcomes flaky_world 10)) = 3%nat
  ∧ length (measureDownload (of_Z 101000) 10 flaky_world).1 = 7%nat
  ∧ length (measureUpload (of_Z 101000) 10 flaky_world).1 = 7%nat.
Proof.
  assert (length (rejected (outcomes flaky_world 10)) = 3%nat) as Hfail
    by reflexivity.
  destruct (drivers_skip_rejected_requests (of_Z 101000) 10 3 flaky_world Hfail)
    as ((_ & _ & _ & Hdown) & (_ & _ & _ & Hup) & _).
  split; [exact Hfail|]. split; [exact Hdown|exact Hup].
Defined.



(** ** The metadata parsers *)

Lemma set_property_lookup (k v k' : string) (data : gmap string string) :
  set_property k v data !! k' =
    (if decide (k = k' ∧ k ≠ "__proto__") then Some v else data !! k').
Proof.
  unfold set_property.
  destruct (decide (k = "__proto__")) as [Hk|Hk];
    destruct (decide (k = k' ∧ k ≠ "__proto__")) as [[Hkk Hk']|Hno];
    try done.
  - subst k'. apply lookup_insert_eq.
  - apply lookup_insert_ne. intros ->. by apply Hno.
Qed.

(** What a sequence of assignments leaves under a key: the value of the
    last assignment to it; nothing under ["__proto__"]. *)
Lemma assignments_lookup {A : Type} (key val : A → string) (l : list A)
    (k : string) :
  foldl (λ data a, set_property (key a) (val a) data) ∅ l !! k =
    (if decide (k = "__proto__") then None
     else val <$> last (filter (λ a, key a = k) l)).
Proof.
  induction l as [|a l IH] using rev_ind.
  - cbn. rewrite lookup_empty. by destruct (decide _).
  - rewrite foldl_snoc, filter_app, set_property_lookup, IH.
    destruct (decide (key a = k ∧ key a ≠ "__proto__")) as [[Hkey Hk]|Hno].
    + subst k. destruct (decide (key a = "__proto__")); [done|].
      rewrite filter_cons_True by done. cbn. by rewrite last_snoc.
    + destruct (decide (k = "__proto__")) as [Hk|Hk]; [done|].
      rewrite filter_cons_False; [by rewrite filter_nil, app_nil_r|].
      intros Hkey. apply Hno. split; [done|]. by rewrite Hkey.
Qed.

(** X12.  [fetchServerLocationData] maps every airport code to the city of the
    last entry of the response that carries the code, and a code no entry
    carries to nothing; an entry whose code is ["__proto__"] is dropped. *)
Theorem location_of_a_code_is_the_last_entry (res : list location)
    (code : string) :
  fetchServerLocationData res !! code =
    (if decide (code = "__proto__") then None
     else city <$> last (filter (λ l, iata l = code) res)).
Proof.
  unfold fetchServerLocationData.
  apply (assignments_lookup iata city res code).
Qed.

Lemma split_nonempty (sep : Ascii.ascii) (s : string) : split sep s ≠ [].
Proof.
  destruct s as [|c s]; [done|]. cbn [split].
  destruct (Ascii.eqb c sep); [done|]. by destruct (split sep s).
Qed.

Lemma split_free (sep : Ascii.ascii) (s : string) :
  free_of sep s = true → split sep s = [s].
Proof.
  induction s as [|c s IH]; [done|]. simpl.
  intros [Hc Hs]%andb_true_iff. apply negb_true_iff in Hc.
  by rewrite Hc, IH.
Qed.

Lemma split_at_separator (sep : Ascii.ascii) (a b : string) :
  free_of sep a = true →
  split sep (a +:+ String sep b) = a :: split sep b.
Proof.
  induction a as [|c a IH]; simpl.
  - intros _. by rewrite Ascii.eqb_refl.
  - intros [Hc Hs]%andb_true_iff. apply negb_true_iff in Hc.
    by rewrite Hc, IH.
Qed.

Lemma string_app_cons (x : Ascii.ascii) (a b : string) :
  String x a +:+ b = String x (a +:+ b).
Proof. reflexivity. Qed.

Lemma string_app_assoc (a b c : string) : (a +:+ b) +:+ c = a +:+ b +:+ c.
Proof.
  induction a as [|x a IH]; [done|]. by rewrite !string_app_cons, IH.
Qed.

Lemma free_of_app (sep : Ascii.ascii) (a b : string) :
  free_of sep (a +:+ b) = (free_of sep a && free_of sep b)%bool.
Proof.
  induction a as [|c a IH]; [done|]. simpl.
  by rewrite IH, andb_assoc.
Qed.

Lemma trace_line_free (kv : string * string) :
  plain_pair kv → free_of line_feed (trace_line kv) = true.
Proof.
  intros (_ & Hk & _ & Hv & _). unfold trace_line.
  by rewrite !free_of_app, Hk, Hv.
Qed.

Lemma trace_line_split (kv : string * string) :
  plain_pair kv → split equals_sign (trace_line kv) = [kv.1; kv.2].
Proof.
  intros (Hk & _ & Hv & _). unfold trace_line.
  change ("=" +:+ kv.2) with (String equals_sign kv.2).
  by rewrite split_at_separator, split_free.
Qed.

Lemma trace_text_lines (kv : string * string) (pairs : list (string * string)) :
  Forall plain_pair (kv :: pairs) →
  split line_feed (trace_text (kv :: pairs)) = trace_line <$> kv :: pairs.
Proof.
  revert kv. induction pairs as [|kv' pairs IH]; intros [k v] Hall.
  - apply Forall_cons in Hall as [Hkv _]. cbn [trace_text fmap list_fmap].
    apply (split_free _ (trace_line (k, v))), trace_line_free, Hkv.
  - apply Forall_cons in Hall as [Hkv Hall].
    change (trace_text ((k, v) :: kv' :: pairs))
      with (k +:+ "=" +:+ v +:+ String line_feed (trace_text (kv' :: pairs))).
    replace (k +:+ "=" +:+ v +:+ String line_feed (trace_text (kv' :: pairs)))
      with (trace_line (k, v) +:+ String line_feed (trace_text (kv' :: pairs))).
    2:{ unfold trace_line. cbn [fst snd].
        by rewrite !string_app_assoc. }
    rewrite split_at_separator by (by apply trace_line_free).
    by rewrite IH.
Qed.

Lemma split_app (sep : Ascii.ascii) (a b : string) :
  split sep (a +:+ String sep b) = split sep a ++ split sep b.
Proof.
  induction a as [|c a IH].
  - simpl. by rewrite Ascii.eqb_refl.
  - rewrite string_app_cons. cbn [split]. rewrite IH.
    destruct (Ascii.eqb c sep); [done|].
    pose proof (split_nonempty sep a) as Hne.
    by destruct (split sep a).
Qed.

Lemma parse_lines (pairs : list (string * string)) :
  Forall plain_pair pairs →
  (λ i, let j := split equals_sign i in (j !! 0%nat, j !! 1%nat))
    <$> (trace_line <$> pairs)
  = (λ kv, (Some kv.1, Some kv.2)) <$> pairs.
Proof.
  intros Hall. rewrite <-list_fmap_compose.
  apply Forall_fmap_ext_1. eapply Forall_impl; [exact Hall|].
  intros kv Hkv. cbn. by rewrite trace_line_split.
Qed.

Lemma foldl_plain_pairs (pairs : list (string * string))
    (data : gmap string string) :
  foldl
    (λ data (kv : option string * option string),
       match kv.2 with
       | None => data
       | Some v => set_property (ToPropertyKey kv.1) v data
       end)
    data ((λ kv, (Some kv.1, Some kv.2)) <$> pairs)
  = foldl (λ data kv, set_property kv.1 kv.2 data) data pairs.
Proof.
  revert data. induction pairs as [|kv pairs IH]; intros data; [done|].
  cbn [fmap list_fmap foldl]. by rewrite <-IH.
Qed.

Lemma no_plain_pair_on_prototype (pairs : list (string * string)) :
  Forall plain_pair pairs →
  filter (λ kv, kv.1 = "__proto__") pairs = [].
Proof.
  induction 1 as [|kv pairs Hkv _ IH]; [done|].
  rewrite filter_cons_False; [done|].
  by destruct Hkv as (_ & _ & _ & _ & Hk).
Qed.

Lemma parse_trace_text (pairs : list (string * string)) :
  Forall plain_pair pairs →
  parseCfCdnCgiTrace (trace_text pairs)
  = foldl (λ data kv, set_property kv.1 kv.2 data) ∅ pairs.
Proof.
  intros Hall. unfold parseCfCdnCgiTrace.
  destruct pairs as [|kv pairs]; [done|].
  by rewrite trace_text_lines, parse_lines, foldl_plain_pairs.
Qed.

(** X13.  Parsing the text of a trace gives the trace back: for pairs whose keys
    and values contain neither ['='] nor a line feed, every key is mapped
    to the value of the last line that carries it and a key of no line is
    mapped to nothing; a line feed after the last line changes nothing. *)
Theorem trace_parse_round_trip (pairs : list (string * string)) (k : string) :
  Forall plain_pair pairs →
  parseCfCdnCgiTrace (trace_text pairs) !! k
  = snd <$> last (filter (λ kv, kv.1 = k) pairs)
  ∧ parseCfCdnCgiTrace (trace_text pairs +:+ String line_feed "")
    = parseCfCdnCgiTrace (trace_text pairs).
Proof.
  intros Hall. split.
  - rewrite parse_trace_text by done.
    rewrite (assignments_lookup fst snd).
    destruct (decide (k = "__proto__")) as [->|Hk]; [|done].
    by rewrite no_plain_pair_on_prototype.
  - unfold parseCfCdnCgiTrace at 1.
    rewrite split_app, fmap_app, foldl_app. done.
Qed.

Lemma trace_parse_round_trip_witness :
  let pairs := [("ip", "192.0.2.7"); ("loc", "PL"); ("colo", "WAW")] in
  Forall plain_pair pairs
  ∧ parseCfCdnCgiTrace (trace_text pairs) !! "colo"
    = snd <$> last (filter (λ kv, kv.1 = "colo") pairs).
Proof.
  cbv zeta.
  assert (Forall plain_pair
            [("ip", "192.0.2.7"); ("loc", "PL"); ("colo", "WAW")]) as Hall.
  { repeat constructor; discriminate. }
  split; [exact Hall|].
  exact (proj1 (trace_parse_round_trip _ "colo" Hall)).
Defined.

(** X14.  A line without ['='] adds nothing to the trace, and of a line with more
    than one ['='] only the text between the first and the second is kept
    as the value. *)
Theorem trace_lines_without_or_with_two_equals (k v rest line : string) :
  free_of equals_sign k = true → free_of equals_sign v = true →
  free_of line_feed (k +:+ v +:+ rest) = true →
  k ≠ "__proto__" →
  free_of equals_sign line = true → free_of line_feed line = true →
  parseCfCdnCgiTrace (k +:+ "=" +:+ v +:+ "=" +:+ rest) = {[ k := v ]}
  ∧ parseCfCdnCgiTrace line = ∅.
Proof.
  intros Hk Hv Hlf Hproto Hline Hline'.
  rewrite !free_of_app in Hlf.
  apply andb_true_iff in Hlf as [Hk' [Hv' Hrest]%andb_true_iff].
  unfold parseCfCdnCgiTrace. split.
  - rewrite split_free by (by rewrite !free_of_app, Hk', Hv', Hrest).
    cbn [fmap list_fmap foldl].
    change ("=" +:+ v +:+ "=" +:+ rest)
      with (String equals_sign (v +:+ String equals_sign rest)).
    rewrite split_at_separator, split_at_separator by done.
    cbn. unfold set_property. rewrite decide_False by done.
    by rewrite insert_empty.
  - rewrite (split_free _ line) by done. cbn [fmap list_fmap foldl].
    by rewrite split_free.
Qed.

Lemma trace_lines_without_or_with_two_equals_witness :
  (free_of equals_sign "uag" = true ∧ free_of equals_sign "curl" = true
   ∧ free_of line_feed ("uag" +:+ "curl" +:+ "8.5") = true
   ∧ "uag" ≠ "__proto__"
   ∧ free_of equals_sign "garbage" = true
   ∧ free_of line_feed "garbage" = true)
  ∧ parseCfCdnCgiTrace "uag=curl=8.5" = {[ "uag" := "curl" ]}
  ∧ parseCfCdnCgiTrace "garbage" = ∅.
Proof.
  assert ("uag" ≠ "__proto__") as Hk by discriminate.
  split; [done|].
  exact (trace_lines_without_or_with_two_equals
           "uag" "curl" "8.5" "garbage"
           eq_refl eq_refl eq_refl Hk eq_refl eq_refl).
Defined.

(** ** The console report *)

Lemma lt_NaN_r (a : number) : lt a NaN = false.
Proof. by destruct a. Qed.

(** X15.  What the report flags.  A finite value is flagged exactly when it is
    strictly beyond its threshold: above it for a latency, below it for a
    speed.  A value that is [NaN] is never flagged, whatever the threshold;
    an infinite speed is never flagged; [undefined] is not printed at all
    but throws a [TypeError]. *)
Theorem values_the_report_flags (t : terminal) (x limit : Qc)
    (threshold : number) (unitName : string) (lowerBetter : bool) :
  formatLatency t (VNum (Fin x)) (Fin limit)
  = Normal (if Qc_ltb limit x
            then bold t (red t (toFixed2 t (Fin x) +:+ " " +:+ "ms" +:+ " (WARN)"))
            else green t (toFixed2 t (Fin x) +:+ " " +:+ "ms"))
  ∧ formatSpeed t (VNum (Fin x)) (Fin limit)
    = Normal (if Qc_ltb x limit
              then bold t (red t (toFixed2 t (Fin x) +:+ " " +:+ "Mbps" +:+ " (WARN)"))
              else green t (toFixed2 t (Fin x) +:+ " " +:+ "Mbps"))
  ∧ formatResult t (VNum (Fin x)) unitName (Fin x) lowerBetter
    = Normal (green t (toFixed2 t (Fin x) +:+ " " +:+ unitName))
  ∧ formatResult t (VNum NaN) unitName threshold lowerBetter
    = Normal (green t (toFixed2 t NaN +:+ " " +:+ unitName))
  ∧ formatSpeed t (VNum PosInf) threshold
    = Normal (green t (toFixed2 t PosInf +:+ " " +:+ "Mbps"))
  ∧ formatResult t VUndef unitName threshold lowerBetter
    = Throw "TypeError: Cannot read properties of undefined (reading 'toFixed')".
Proof.
  split_and!.
  - unfold formatLatency, formatResult, gt. cbn [ToNumber lt].
    by destruct (Qc_ltb limit x).
  - unfold formatSpeed, formatResult. cbn [ToNumber lt].
    by destruct (Qc_ltb x limit).
  - unfold formatResult, gt. cbn [ToNumber lt]. rewrite Qc_ltb_irrefl.
    by destruct lowerBetter.
  - unfold formatResult, gt. cbn [ToNumber]. rewrite lt_NaN_r.
    by destruct lowerBetter.
  - unfold formatSpeed, formatResult. cbn [ToNumber]. by destruct threshold.
  - done.
Qed.

Lemma string_length_app (a b : string) :
  String.length (a +:+ b) = (String.length a + String.length b)%nat.
Proof.
  induction a as [|x a IH]; [done|].
  rewrite string_app_cons. cbn [String.length]. by rewrite IH.
Qed.

Lemma spaces_length (n : nat) :
  String.length (foldr String.append "" (replicate n " ")) = n.
Proof.
  induction n as [|n IH]; [done|].
  cbn [replicate foldr]. rewrite string_length_app, IH. done.
Qed.

(** X16.  [logInfo] right-aligns its label: for a label of at most 15 characters
    the printed line is a prefix of exactly 18 characters, ending in the
    label, a colon and a space, followed by the coloured data; a longer
    label prints nothing and throws a [RangeError]. *)
Theorem logInfo_aligns_short_labels (t : terminal) (text long data : string)
    (w : world) :
  (String.length text ≤ 15)%nat → (15 < String.length long)%nat →
  (∃ pad,
      logInfo t text data w
      = Normal (console_log ((pad +:+ " " +:+ text +:+ ":" +:+ " ")
                               +:+ blue t data) w)
      ∧ String.length (pad +:+ " " +:+ text +:+ ":" +:+ " ") = 18%nat)
  ∧ logInfo t long data w
    = Throw ("RangeError: Invalid count value: "
             +:+ pretty (15 - Z.of_nat (String.length long))%Z).
Proof.
  intros Hshort Hlong. split.
  - exists (foldr String.append "" (replicate (15 - String.length text)%nat " ")).
    split.
    + unfold logInfo, String_repeat.
      assert ((15 - Z.of_nat (String.length text) <? 0)%Z = false) as ->
        by (apply Z.ltb_ge; lia).
      replace (Z.to_nat (15 - Z.of_nat (String.length text)))
        with (15 - String.length text)%nat by lia.
      by rewrite !string_app_assoc.
    + rewrite !string_length_app, spaces_length. cbn [String.length]. lia.
  - unfold logInfo, String_repeat.
    assert ((15 - Z.of_nat (String.length long) <? 0)%Z = true) as ->
      by (apply Z.ltb_lt; lia).
    done.
Qed.

Lemma logInfo_aligns_short_labels_witness :
  ((String.length "Your IP" ≤ 15)%nat
   ∧ (15 < String.length "Measured location")%nat)
  ∧ (∃ pad,
        logInfo tagging_terminal "Your IP" "192.0.2.7 (PL)" steady_world
        = Normal (console_log ((pad +:+ " " +:+ "Your IP" +:+ ":" +:+ " ")
                                 +:+ blue tagging_terminal "192.0.2.7 (PL)")
                    steady_world)
        ∧ String.length (pad +:+ " " +:+ "Your IP" +:+ ":" +:+ " ") = 18%nat)
  ∧ logInfo tagging_terminal "Measured location" "WAW" steady_world
    = Throw ("RangeError: Invalid count value: "
             +:+ pretty (15 - Z.of_nat (String.length "Measured location"))%Z).
Proof.
  assert (String.length "Your IP" ≤ 15)%nat as Hshort by (cbn; lia).
  assert (15 < String.length "Measured location")%nat as Hlong by (cbn; lia).
  split; [done|].
  exact (logInfo_aligns_short_labels tagging_terminal
           "Your IP" "Measured location" "192.0.2.7 (PL)" steady_world
           Hshort Hlong).
Defined.
